(** * faust.utils.text: fuzzy matching and text helpers

    A shallow embedding of [src/faust/utils/text.py] together with the part
    of Python's [difflib.SequenceMatcher] that [fuzzymatch_iter] calls
    ([SequenceMatcher(None, needle, key).ratio()]).

    Conventions of the embedding:
    - a Python [str] is a [string]; its characters are the 8-bit [ascii]
      values, compared by code point.  Case mapping and whitespace are
      modelled for the 7-bit ASCII range;
    - a generator is the list of the values it yields, in order;
    - the float [2.0 * matches / length] is the exact rational it rounds,
      and [min_ratio] is a rational;
    - indices are natural numbers; where Python would compute a negative
      index the case is written out. *)

From Stdlib Require Import Ascii String.
From Stdlib Require Import List Arith Lia Bool ZArith QArith Sorted.
Import ListNotations.

Open Scope nat_scope.

(** ** difflib.SequenceMatcher *)

Module SequenceMatcher.

Definition elt := ascii.

(** [Match = namedtuple('Match', 'a b size')] *)
Record Match : Type := mkMatch { m_a : nat; m_b : nat; size : nat }.

(** [b2j] is only read through [b2j.get(elt, nothing)]: a total map
    whose default is the empty list of indices. *)
Definition b2j_t : Type := elt -> list nat.

Definition b2j_empty : b2j_t := fun _ => [].

(** [indices = b2j.setdefault(elt, []); indices.append(i)] *)
Definition setdefault_append (m : b2j_t) (e : elt) (i : nat) : b2j_t :=
  fun c => if Ascii.eqb c e then m c ++ [i] else m c.

(** [for i, elt in enumerate(b): ...], started at index [i]. *)
Fixpoint chain_enumerate (b : list elt) (i : nat) (m : b2j_t) : b2j_t :=
  match b with
  | [] => m
  | e :: b' => chain_enumerate b' (S i) (setdefault_append m e i)
  end.

(** [isjunk] is [None]: the junk set stays empty. *)
Definition isbjunk (_ : elt) : bool := false.

(** The autojunk heuristic: with [n >= 200] an element listed more than
    [n // 100 + 1] times is popular. *)
Definition popular (n : nat) (m : b2j_t) (c : elt) : bool :=
  (200 <=? n) && (n / 100 + 1 <? length (m c)).

(** [__chain_b]: the index lists, with popular elements deleted. *)
Definition chain_b (b : list elt) : b2j_t :=
  let m := chain_enumerate b 0 b2j_empty in
  let n := length b in
  fun c => if popular n m c then [] else m c.

(** [j2len]: a dict read through [.get(j-1, 0)]. *)
Definition j2len_t : Type := nat -> nat.

Definition j2len_empty : j2len_t := fun _ => 0.

Definition j2len_set (m : j2len_t) (j k : nat) : j2len_t :=
  fun x => if x =? j then k else m x.

(** [j2len.get(j-1, 0)]: key [-1] is never stored. *)
Definition j2len_get_pred (m : j2len_t) (j : nat) : nat :=
  match j with
  | 0 => 0
  | S j' => m j'
  end.

(** The inner loop of [find_longest_match] over the indices [js] of
    [a[i]] in [b]; returns [newj2len] and the best block so far. *)
Fixpoint inner_loop (js : list nat) (i blo bhi : nat)
         (j2len newj2len : j2len_t) (best : Match) : j2len_t * Match :=
  match js with
  | [] => (newj2len, best)
  | j :: js' =>
      if j <? blo then inner_loop js' i blo bhi j2len newj2len best
      else if bhi <=? j then (newj2len, best)
      else
        let k := j2len_get_pred j2len j + 1 in
        let best' := if size best <? k
                     then mkMatch (i + 1 - k) (j + 1 - k) k
                     else best in
        inner_loop js' i blo bhi j2len (j2len_set newj2len j k) best'
  end.

(** [b2j.get(a[i], nothing)]; [i] is always inside [a] here. *)
Definition indices_of (a : list elt) (b2j : b2j_t) (i : nat) : list nat :=
  match nth_error a i with
  | Some c => b2j c
  | None => []
  end.

(** [for i in range(alo, ahi): ...] over the list [rows] of row indices. *)
Fixpoint outer_loop (rows : list nat) (a : list elt) (b2j : b2j_t)
         (blo bhi : nat) (j2len : j2len_t) (best : Match) : Match :=
  match rows with
  | [] => best
  | i :: rows' =>
      let '(newj2len, best') :=
        inner_loop (indices_of a b2j i) i blo bhi j2len j2len_empty best in
      outer_loop rows' a b2j blo bhi newj2len best'
  end.

(** [a[i] == b[j]], both inside their sequences. *)
Definition same_at (a b : list elt) (i j : nat) : bool :=
  match nth_error a i, nth_error b j with
  | Some x, Some y => Ascii.eqb x y
  | _, _ => false
  end.

Definition junk_at (b : list elt) (j : nat) : bool :=
  match nth_error b j with
  | Some y => isbjunk y
  | None => false
  end.

(** [while besti > alo and bestj > blo and isbjunk(b[bestj-1]) == junk
    and a[besti-1] == b[bestj-1]]: at most [besti] rounds. *)
Fixpoint extend_left (fuel : nat) (junk : bool) (a b : list elt)
         (alo blo : nat) (m : Match) : Match :=
  match fuel with
  | 0 => m
  | S fuel' =>
      if (alo <? m_a m) && (blo <? m_b m)
         && Bool.eqb (junk_at b (m_b m - 1)) junk
         && same_at a b (m_a m - 1) (m_b m - 1)
      then extend_left fuel' junk a b alo blo
             (mkMatch (m_a m - 1) (m_b m - 1) (size m + 1))
      else m
  end.

(** [while besti+bestsize < ahi and bestj+bestsize < bhi and
    isbjunk(b[bestj+bestsize]) == junk and
    a[besti+bestsize] == b[bestj+bestsize]]: at most
    [ahi - (besti+bestsize)] rounds. *)
Fixpoint extend_right (fuel : nat) (junk : bool) (a b : list elt)
         (ahi bhi : nat) (m : Match) : Match :=
  match fuel with
  | 0 => m
  | S fuel' =>
      if (m_a m + size m <? ahi) && (m_b m + size m <? bhi)
         && Bool.eqb (junk_at b (m_b m + size m)) junk
         && same_at a b (m_a m + size m) (m_b m + size m)
      then extend_right fuel' junk a b ahi bhi
             (mkMatch (m_a m) (m_b m) (size m + 1))
      else m
  end.

Definition find_longest_match (a b : list elt) (b2j : b2j_t)
           (alo ahi blo bhi : nat) : Match :=
  let m0 := outer_loop (seq alo (ahi - alo)) a b2j blo bhi j2len_empty
              (mkMatch alo blo 0) in
  let m1 := extend_left (m_a m0) false a b alo blo m0 in
  let m2 := extend_right (ahi - (m_a m1 + size m1)) false a b ahi bhi m1 in
  let m3 := extend_left (m_a m2) true a b alo blo m2 in
  extend_right (ahi - (m_a m3 + size m3)) true a b ahi bhi m3.

(** One entry of [queue]: [(alo, ahi, blo, bhi)]. *)
Abbreviation range := (nat * nat * nat * nat)%type.

(** The [while queue:] loop.  The head of the list is the last element
    of the Python list ([queue.pop()] takes it, [queue.append] adds
    there).  [None]: the fuel ran out before the queue was empty. *)
Fixpoint blocks_loop (fuel : nat) (a b : list elt) (b2j : b2j_t)
         (queue : list range) (matching_blocks : list Match)
         {struct fuel} : option (list Match) :=
  match queue with
  | [] => Some matching_blocks
  | (alo, ahi, blo, bhi) :: queue' =>
      match fuel with
      | 0 => None
      | S fuel' =>
          let x := find_longest_match a b b2j alo ahi blo bhi in
          let i := m_a x in
          let j := m_b x in
          let k := size x in
          if k =? 0 then blocks_loop fuel' a b b2j queue' matching_blocks
          else
            let q1 := if (alo <? i) && (blo <? j)
                      then (alo, i, blo, j) :: queue' else queue' in
            let q2 := if (i + k <? ahi) && (j + k <? bhi)
                      then (i + k, ahi, j + k, bhi) :: q1 else q1 in
            blocks_loop fuel' a b b2j q2 (matching_blocks ++ [x])
      end
  end.

(** Tuple order on [Match]: [x < y]. *)
Definition match_ltb (x y : Match) : bool :=
  if m_a x =? m_a y then
    if m_b x =? m_b y then size x <? size y else m_b x <? m_b y
  else m_a x <? m_a y.

(** [matching_blocks.sort()], as a stable insertion sort. *)
Fixpoint sort_insert (x : Match) (l : list Match) : list Match :=
  match l with
  | [] => [x]
  | y :: l' => if match_ltb y x then y :: sort_insert x l' else x :: l
  end.

Definition sort_blocks (l : list Match) : list Match :=
  fold_left (fun acc x => sort_insert x acc) l [].

(** The loop that collapses adjacent blocks; [cur] is [(i1, j1, k1)]. *)
Fixpoint collapse (blocks : list Match) (cur : Match)
         (non_adjacent : list Match) : list Match :=
  match blocks with
  | [] => if size cur =? 0 then non_adjacent else non_adjacent ++ [cur]
  | x :: blocks' =>
      if (m_a cur + size cur =? m_a x) && (m_b cur + size cur =? m_b x)
      then collapse blocks' (mkMatch (m_a cur) (m_b cur) (size cur + size x))
             non_adjacent
      else collapse blocks' x
             (if size cur =? 0 then non_adjacent else non_adjacent ++ [cur])
  end.

(** Every round of [blocks_loop] removes a range and adds ranges that
    together are shorter, so [2 * len(a) + 1] rounds are enough
    (lemma [blocks_loop_fuel]). *)
Definition get_matching_blocks (a b : list elt) : list Match :=
  let la := length a in
  let lb := length b in
  match blocks_loop (2 * la + 1) a b (chain_b b) [(0, la, 0, lb)] [] with
  | Some matching_blocks =>
      collapse (sort_blocks matching_blocks) (mkMatch 0 0 0) []
        ++ [mkMatch la lb 0]
  | None => []
  end.

(** [_calculate_ratio(matches, length)] *)
Definition calculate_ratio (matches len : nat) : Q :=
  if len =? 0 then 1%Q
  else Qmake (Z.of_nat (2 * matches)) (Pos.of_nat len).

Definition matches (a b : list elt) : nat :=
  fold_right (fun triple acc => size triple + acc) 0 (get_matching_blocks a b).

Definition ratio (a b : list elt) : Q :=
  calculate_ratio (matches a b) (length a + length b).

End SequenceMatcher.

(** ** faust.utils.text *)

(** [SequenceMatcher(None, a, b).ratio()] *)
Definition similarity_ratio (a b : string) : Q :=
  SequenceMatcher.ratio (list_ascii_of_string a) (list_ascii_of_string b).

(** [class FuzzyMatch(NamedTuple)] *)
Record FuzzyMatch : Type := mkFuzzyMatch { ratio : Q; value : string }.

(** [fuzzymatch_iter]: the matches it yields, in order. *)
Fixpoint fuzzymatch_iter (haystack : list string) (needle : string)
         (min_ratio : Q) : list FuzzyMatch :=
  match haystack with
  | [] => []
  | key :: haystack' =>
      let ratio := similarity_ratio needle key in
      if Qle_bool min_ratio ratio
      then mkFuzzyMatch ratio key :: fuzzymatch_iter haystack' needle min_ratio
      else fuzzymatch_iter haystack' needle min_ratio
  end.

(** [fuzzymatch]: [yield match.value] for every match. *)
Definition fuzzymatch (haystack : list string) (needle : string)
           (min_ratio : Q) : list string :=
  map value (fuzzymatch_iter haystack needle min_ratio).

(** Tuple comparison [x < y] on [(ratio, value)]: the first component
    that differs decides. *)
Definition fuzzymatch_ltb (x y : FuzzyMatch) : bool :=
  if Qeq_bool (ratio x) (ratio y)
  then String.ltb (value x) (value y)
  else negb (Qle_bool (ratio y) (ratio x)).

(** [sorted(..., reverse=True)]: descending and stable, as an insertion
    sort (equal elements keep their order). *)
Fixpoint insert_reverse (x : FuzzyMatch) (l : list FuzzyMatch)
  : list FuzzyMatch :=
  match l with
  | [] => [x]
  | y :: l' => if fuzzymatch_ltb x y then y :: insert_reverse x l' else x :: l
  end.

Definition sorted_reverse (l : list FuzzyMatch) : list FuzzyMatch :=
  fold_right insert_reverse [] l.

(** [fuzzymatch_best]: [[0].value] of the sorted matches; the
    [IndexError] of an empty list becomes [None]. *)
Definition fuzzymatch_best (haystack : list string) (needle : string)
           (min_ratio : Q) : option string :=
  match sorted_reverse (fuzzymatch_iter haystack needle min_ratio) with
  | [] => None
  | m :: _ => Some (value m)
  end.

(** [fmt.format(alt=alt)] for templates made of text, [{{], [}}] and the
    field [{alt}].  [field] is the name read since an open brace.
    [None]: the call raises ([ValueError], [KeyError], [IndexError]) or
    the template has a replacement field other than a plain [{alt}]. *)
Fixpoint format_go (fmt : string) (field : option string) (alt : string)
  : option string :=
  match fmt with
  | EmptyString =>
      match field with
      | None => Some EmptyString
      | Some _ => None
      end
  | String c rest =>
      match field with
      | Some name =>
          if Ascii.eqb c "}" then
            if String.eqb name "alt"
            then option_map (String.append alt) (format_go rest None alt)
            else None
          else if Ascii.eqb c "{" then None
          else format_go rest (Some (name ++ String c EmptyString)%string) alt
      | None =>
          if Ascii.eqb c "{" then
            match rest with
            | String "{" rest' =>
                option_map (String "{") (format_go rest' None alt)
            | _ => format_go rest (Some EmptyString) alt
            end
          else if Ascii.eqb c "}" then
            match rest with
            | String "}" rest' =>
                option_map (String "}") (format_go rest' None alt)
            | _ => None
            end
          else option_map (String c) (format_go rest None alt)
      end
  end.

Definition format_alt (fmt alt : string) : option string :=
  format_go fmt None alt.

(** [fuzzymatch_choices]; [None] when [format] raises. *)
Definition fuzzymatch_choices (haystack : list string) (needle : string)
           (fmt_many fmt_one fmt_none : string) (min_ratio : Q)
  : option string :=
  let alt := fuzzymatch haystack needle min_ratio in
  match alt with
  | [] => Some fmt_none
  | _ :: _ =>
      format_alt (if 1 <? List.length alt then fmt_many else fmt_one)
        (String.concat ", " alt)
  end.

Definition didyoumean (haystack : list string) (needle : string)
           (fmt_many fmt_one fmt_none : string) (min_ratio : Q)
  : option string :=
  fuzzymatch_choices haystack needle fmt_many fmt_one fmt_none min_ratio.

(** *** title *)

(** [s.replace(old, new)] for a one-character [old]. *)
Fixpoint replace (s : string) (old : ascii) (new : string) : string :=
  match s with
  | EmptyString => EmptyString
  | String c s' =>
      if Ascii.eqb c old then (new ++ replace s' old new)%string
      else String c (replace s' old new)
  end.

(** [str.isspace] on ASCII: TAB..CR, FS..US and the space. *)
Definition isspace (c : ascii) : bool :=
  let n := nat_of_ascii c in
  ((9 <=? n) && (n <=? 13)) || ((28 <=? n) && (n <=? 32)).

(** [s.split()]: the maximal runs of non-space characters; [cur] is the
    run being read. *)
Fixpoint split_go (s cur : string) : list string :=
  match s with
  | EmptyString => if String.eqb cur "" then [] else [cur]
  | String c s' =>
      if isspace c then
        if String.eqb cur "" then split_go s' "" else cur :: split_go s' ""
      else split_go s' (cur ++ String c EmptyString)%string
  end.

Definition split (s : string) : list string := split_go s "".

Definition upper_char (c : ascii) : ascii :=
  let n := nat_of_ascii c in
  if (97 <=? n) && (n <=? 122) then ascii_of_nat (n - 32) else c.

Definition lower_char (c : ascii) : ascii :=
  let n := nat_of_ascii c in
  if (65 <=? n) && (n <=? 90) then ascii_of_nat (n + 32) else c.

Fixpoint lower (s : string) : string :=
  match s with
  | EmptyString => EmptyString
  | String c s' => String (lower_char c) (lower s')
  end.

(** [p.capitalize()] *)
Definition capitalize (p : string) : string :=
  match p with
  | EmptyString => EmptyString
  | String c p' => String (upper_char c) (lower p')
  end.

Definition title (s : string) : string :=
  String.concat " "
    (map capitalize (split (replace (replace s "-" " ") "_" ""))).

(** *** abbr *)

(** [s[:n]], with Python's reading of a negative [n]. *)
Definition slice_to (s : string) (n : Z) : string :=
  let len := Z.of_nat (String.length s) in
  if (n <? 0)%Z then substring 0 (Z.to_nat (len + n)) s
  else substring 0 (Z.to_nat n) s.

Definition _abbr_word_boundary (s : string) (max : Z) (suffix : string)
  : string :=
  if (max <? Z.of_nat (String.length s))%Z then
    if String.eqb suffix "" then slice_to s max
    else (slice_to s (max - Z.of_nat (String.length suffix)) ++ suffix)%string
  else s.

(** The part of [s] before its last space, if it has a space. *)
Fixpoint before_last_space (s : string) : option string :=
  match s with
  | EmptyString => None
  | String c s' =>
      match before_last_space s' with
      | Some p => Some (String c p)
      | None => if Ascii.eqb c " " then Some EmptyString else None
      end
  end.

(** [s.rsplit(' ', 1)[0]] *)
Definition rsplit_head (s : string) : string :=
  match before_last_space s with
  | Some p => p
  | None => s
  end.

(** What [print((s, max, suffix))] writes, as the tuple itself. *)
Definition printed : Type := (string * Z * string)%type.

(** [_abbr_abrupt]: the lines printed and the value returned. *)
Definition _abbr_abrupt (s : string) (max : Z) (suffix : string)
  : list printed * string :=
  ([(s, max, suffix)],
   if negb (max =? 0)%Z && (max <=? Z.of_nat (String.length s))%Z
   then (rsplit_head (slice_to s max) ++ suffix)%string
   else s).

Definition abbr (s : string) (max : Z) (suffix : string) (words : bool)
  : list printed * string :=
  if words then ([], _abbr_word_boundary s max suffix)
  else _abbr_abrupt s max suffix.

(** *** abbr_fqdn, shorten_fqdn and pluralize *)

(** [s[n:]] for a non-negative [n]. *)
Fixpoint slice_from (s : string) (n : nat) : string :=
  match n, s with
  | 0, _ => s
  | S _, EmptyString => EmptyString
  | S n', String _ s' => slice_from s' n'
  end.

(** [abbr_fqdn]; [name.startswith(origin)] is [String.prefix]. *)
Definition abbr_fqdn (origin name prefix : string) : string :=
  if String.prefix origin name
  then (prefix ++ slice_from name (String.length origin + 1))%string
  else name.

(** The parts of [s] before and after its last [sep], if it has one. *)
Fixpoint rsplit_at (sep : ascii) (s : string) : option (string * string) :=
  match s with
  | EmptyString => None
  | String c s' =>
      match rsplit_at sep s' with
      | Some (before, after) => Some (String c before, after)
      | None => if Ascii.eqb c sep then Some (EmptyString, s') else None
      end
  end.

(** [s.rpartition(sep)] for a one-character [sep]: without a separator
    the result is [('', '', s)]. *)
Definition rpartition (s : string) (sep : ascii)
  : string * string * string :=
  match rsplit_at sep s with
  | Some (before, after) => (before, String sep EmptyString, after)
  | None => (EmptyString, EmptyString, s)
  end.

(** [shorten_fqdn].  It passes [None] for [suffix]; [None] is false in
    [suffix and ... or s[:max]] like the empty string, which stands
    for it here. *)
Definition shorten_fqdn (s : string) (max : Z) : list printed * string :=
  if (max <? Z.of_nat (String.length s))%Z then
    let '(module, _, cls) := rpartition s "." in
    let '(out, module') :=
      abbr module (max - Z.of_nat (String.length cls) - 3) "" true in
    (out, (module' ++ "[.]" ++ cls)%string)
  else ([], s).

Definition pluralize (n : Z) (text suffix : string) : string :=
  if negb (n =? 1)%Z then (text ++ suffix)%string else text.

(** The default templates and threshold of [didyoumean]. *)
Definition didyoumean_default (haystack : list string) (needle : string)
  : option string :=
  didyoumean haystack needle
             "Did you mean one of {alt}?" "Did you mean {alt}?" "" (6 # 10).

(** ** Vocabulary of the statements *)

(** [x < y] on matches, as a proposition. *)
Definition fuzzymatch_lt (x y : FuzzyMatch) : Prop :=
  (ratio x < ratio y)%Q \/
  ((ratio x == ratio y)%Q /\ String.ltb (value x) (value y) = true).

(** The spec's wording: keep the candidates that clear the threshold,
    each paired with its ratio. *)
Definition match_stream (vocabulary : list string) (query : string)
           (threshold : Q) : list FuzzyMatch :=
  map (fun c => mkFuzzyMatch (similarity_ratio query c) c)
      (filter (fun c => Qle_bool threshold (similarity_ratio query c))
              vocabulary).

(** [c in s] *)
Fixpoint has_char (c : ascii) (s : string) : bool :=
  match s with
  | EmptyString => false
  | String x s' => Ascii.eqb x c || has_char c s'
  end.

(** The text after the last dot of [s], or [s] if it has no dot: what
    [shorten_fqdn] calls [cls]. *)
Definition last_segment (s : string) : string := snd (rpartition s ".").




Module MatcherSpec.
Import SequenceMatcher.

(** A block lies inside the two ranges searched. *)
Definition within (alo ahi blo bhi : nat) (m : Match) : Prop :=
  alo <= m_a m /\ m_a m + size m <= ahi /\
  blo <= m_b m /\ m_b m + size m <= bhi.

(** What a row of [j2len] may hold after the rows below [i]: no run is
    longer than the part of either range read so far. *)
Definition row_bounded (alo blo i : nat) (j2len : j2len_t) : Prop :=
  forall j, j2len j <= i - alo /\ j2len j <= j + 1 - blo.

(** [sum(triple[-1] for triple in blocks)] *)
Definition total (l : list Match) : nat :=
  fold_right (fun triple acc => size triple + acc) 0 l.

Definition range_ok (r : range) : Prop :=
  let '(alo, ahi, blo, bhi) := r in alo <= ahi /\ blo <= bhi.

Fixpoint span_a (q : list range) : nat :=
  match q with
  | [] => 0
  | (alo, ahi, _, _) :: q' => (ahi - alo) + span_a q'
  end.

Fixpoint span_b (q : list range) : nat :=
  match q with
  | [] => 0
  | (_, _, blo, bhi) :: q' => (bhi - blo) + span_b q'
  end.

(** The measure that every round of the loop lowers. *)
Definition weight (q : list range) : nat := 2 * span_a q + List.length q.

(** The indices, counted from [i], at which [c] occurs in [b]. *)
Fixpoint positions (c : elt) (b : list elt) (i : nat) : list nat :=
  match b with
  | [] => []
  | e :: b' =>
      if Ascii.eqb c e then i :: positions c b' (S i)
      else positions c b' (S i)
  end.

(** [l[lo:hi]] *)
Definition slice {A : Type} (l : list A) (lo hi : nat) : list A :=
  firstn (hi - lo) (skipn lo l).

(** [a] and [b] have a common subsequence of [n] elements. *)
Inductive common {A : Type} : nat -> list A -> list A -> Prop :=
| common_nil : common 0 [] []
| common_skip_l n x a b : common n a b -> common n (x :: a) b
| common_skip_r n y a b : common n a b -> common n a (y :: b)
| common_both n x a b : common n a b -> common (S n) (x :: a) (x :: b).

(** The block [m] pairs equal elements: [a[i:i+k] == b[j:j+k]]. *)
Definition block_sound (a b : list elt) (m : Match) : Prop :=
  forall t, t < size m -> nth_error a (m_a m + t) = nth_error b (m_b m + t).

(** [j2len], when row [i] starts, counts equal elements that end at
    [a[i-1]] and [b[j]]. *)
Definition row_sound (a b : list elt) (i : nat) (j2len : j2len_t) : Prop :=
  forall j t, t < j2len j -> nth_error a (i - 1 - t) = nth_error b (j - t).

(** [b2j] lists under [c] only indices at which [b] holds [c]. *)
Definition b2j_sound (b : list elt) (b2j : b2j_t) : Prop :=
  forall c j, In j (b2j c) -> nth_error b j = Some c.

Definition range_in (la lb : nat) (r : range) : Prop :=
  let '(alo, ahi, blo, bhi) := r in
  alo <= ahi /\ ahi <= la /\ blo <= bhi /\ bhi <= lb.

(** The two slices of a range have a common subsequence of [n]
    elements. *)
Definition range_common (a b : list elt) (r : range) (n : nat) : Prop :=
  let '(alo, ahi, blo, bhi) := r in
  common n (slice a alo ahi) (slice b blo bhi).

(** A sequence [s] matched against itself. *)
Section Runs.

Variable s : list elt.

Definition nonpopular (c : elt) : bool :=
  negb (popular (List.length s) (chain_enumerate s 0 b2j_empty) c).

(** [s[i]] and [s[j]] are the same element, and it is in [b2j]. *)
Definition ok (i j : nat) : bool :=
  match nth_error s i, nth_error s j with
  | Some x, Some y => Ascii.eqb x y && nonpopular x
  | _, _ => false
  end.

(** The length of the longest run of elements of [b2j] that ends at
    [s[i]] and at [s[j]]: the value the loops store in
    [newj2len[j]] at row [i]. *)
Fixpoint run (i j : nat) : nat :=
  if ok i j then
    S (match i, j with
       | S i', S j' => run i' j'
       | _, _ => 0
       end)
  else 0.

Definition prev_run (i j : nat) : nat :=
  match i, j with
  | S i', S j' => run i' j'
  | _, _ => 0
  end.

(** [j2len] when row [i] starts. *)
Definition row_run (i j : nat) : nat :=
  match i with
  | 0 => 0
  | S i' => run i' j
  end.

End Runs.

End MatcherSpec.

(** ** The order used by [sorted] *)

Section StringOrder.

Lemma ascii_compare_lt_trans (a b c : ascii) :
  Ascii.compare a b = Lt -> Ascii.compare b c = Lt -> Ascii.compare a c = Lt.
Proof.
  unfold Ascii.compare. rewrite !N.compare_lt_iff. apply N.lt_trans.
Qed.

Lemma ascii_compare_refl (a : ascii) : Ascii.compare a a = Eq.
Proof. unfold Ascii.compare. apply N.compare_refl. Qed.

Lemma string_compare_refl (s : string) : String.compare s s = Eq.
Proof.
  induction s as [|c s IH]; simpl; [reflexivity|].
  now rewrite ascii_compare_refl.
Qed.

Lemma string_compare_lt_trans (s1 s2 s3 : string) :
  String.compare s1 s2 = Lt -> String.compare s2 s3 = Lt ->
  String.compare s1 s3 = Lt.
Proof.
  revert s2 s3.
  induction s1 as [|c1 s1 IH]; intros [|c2 s2] [|c3 s3]; simpl;
    try congruence.
  destruct (Ascii.compare c1 c2) eqn:E12; try discriminate;
    destruct (Ascii.compare c2 c3) eqn:E23; try discriminate; intros H1 H2.
  - apply Ascii.compare_eq_iff in E12, E23. subst.
    rewrite ascii_compare_refl. eauto.
  - apply Ascii.compare_eq_iff in E12. subst. now rewrite E23.
  - apply Ascii.compare_eq_iff in E23. subst. now rewrite E12.
  - now rewrite (ascii_compare_lt_trans _ _ _ E12 E23).
Qed.

Lemma string_ltb_irrefl (s : string) : String.ltb s s = false.
Proof. unfold String.ltb. now rewrite string_compare_refl. Qed.

Lemma string_ltb_trans (s1 s2 s3 : string) :
  String.ltb s1 s2 = true -> String.ltb s2 s3 = true ->
  String.ltb s1 s3 = true.
Proof.
  unfold String.ltb.
  destruct (String.compare s1 s2) eqn:E12; try discriminate.
  destruct (String.compare s2 s3) eqn:E23; try discriminate.
  now rewrite (string_compare_lt_trans _ _ _ E12 E23).
Qed.

(** Trichotomy, in the form the sort needs: [s2] is below [s3] or not
    below [s1]. *)
Lemma string_ltb_cotrans (s1 s2 s3 : string) :
  String.ltb s1 s3 = true ->
  String.ltb s1 s2 = true \/ String.ltb s2 s3 = true.
Proof.
  intros H13. unfold String.ltb at 1.
  destruct (String.compare s1 s2) eqn:E12; auto; right.
  - apply String.compare_eq_iff in E12. now subst.
  - rewrite String.compare_antisym in E12.
    assert (E21 : String.ltb s2 s1 = true).
    { unfold String.ltb. now destruct (String.compare s2 s1). }
    eapply string_ltb_trans; eauto.
Qed.

Lemma string_ltb_asym (s1 s2 : string) :
  String.ltb s1 s2 = true -> String.ltb s2 s1 = false.
Proof.
  intros H. destruct (String.ltb s2 s1) eqn:E; [|reflexivity].
  pose proof (string_ltb_trans _ _ _ H E) as C.
  now rewrite string_ltb_irrefl in C.
Qed.

End StringOrder.

Lemma fuzzymatch_ltb_lt (x y : FuzzyMatch) :
  fuzzymatch_ltb x y = true <-> fuzzymatch_lt x y.
Proof.
  unfold fuzzymatch_ltb, fuzzymatch_lt.
  destruct (Qeq_bool (ratio x) (ratio y)) eqn:E.
  - apply Qeq_bool_iff in E. split; [now right|].
    intros [H|[_ H]]; [|exact H].
    rewrite E in H. now apply Qlt_irrefl in H.
  - apply Qeq_bool_neq in E. rewrite negb_true_iff.
    split.
    + intros H. left. apply Qnot_le_lt. intros C.
      apply Qle_bool_iff in C. congruence.
    + intros [H|[H _]]; [|contradiction].
      destruct (Qle_bool (ratio y) (ratio x)) eqn:L; [|reflexivity].
      apply Qle_bool_iff in L. exfalso. eapply Qlt_not_le; eauto.
  Qed.

Lemma fuzzymatch_lt_asym (x y : FuzzyMatch) :
  fuzzymatch_lt x y -> ~ fuzzymatch_lt y x.
Proof.
  intros [H|[E H]] [H'|[E' H']].
  - eapply Qlt_irrefl, Qlt_trans; eauto.
  - rewrite E' in H. now apply Qlt_irrefl in H.
  - rewrite E in H'. now apply Qlt_irrefl in H'.
  - apply string_ltb_asym in H. congruence.
Qed.

Lemma fuzzymatch_lt_cotrans (x y z : FuzzyMatch) :
  fuzzymatch_lt x z -> fuzzymatch_lt x y \/ fuzzymatch_lt y z.
Proof.
  unfold fuzzymatch_lt. intros H.
  destruct (Q_dec (ratio x) (ratio y)) as [[Lxy|Gxy]|Exy].
  - now left; left.
  - right; left. destruct H as [H|[E _]].
    + eapply Qlt_trans; eauto.
    + now rewrite <- E.
  - destruct H as [H|[E H]].
    + right; left. now rewrite <- Exy.
    + destruct (string_ltb_cotrans _ (value y) _ H) as [S|S].
      * left; right. split; assumption.
      * right; right. split; [|assumption]. now rewrite <- Exy.
Qed.

(** ** Sorting *)

Lemma insert_reverse_In (x y : FuzzyMatch) (l : list FuzzyMatch) :
  In y (insert_reverse x l) <-> y = x \/ In y l.
Proof.
  induction l as [|z l IH]; simpl.
  - intuition.
  - destruct (fuzzymatch_ltb x z); simpl; rewrite ?IH; intuition.
Qed.

Lemma sorted_reverse_In (y : FuzzyMatch) (l : list FuzzyMatch) :
  In y (sorted_reverse l) <-> In y l.
Proof.
  induction l as [|x l IH]; simpl; [reflexivity|].
  rewrite insert_reverse_In, IH. intuition.
Qed.

(** The head of the sorted list is below no element of the list. *)
Lemma sorted_reverse_head (l : list FuzzyMatch) (m : FuzzyMatch)
      (rest : list FuzzyMatch) :
  sorted_reverse l = m :: rest ->
  forall x, In x l -> ~ fuzzymatch_lt m x.
Proof.
  revert m rest.
  induction l as [|y l IH]; intros m rest Hs x Hx; [contradiction|].
  simpl in Hs.
  destruct (sorted_reverse l) as [|h t] eqn:Hl.
  - simpl in Hs. injection Hs as <- <-.
    destruct Hx as [<-|Hx].
    + intros C. exact (fuzzymatch_lt_asym _ _ C C).
    + apply sorted_reverse_In in Hx. rewrite Hl in Hx. contradiction.
  - simpl in Hs.
    destruct (fuzzymatch_ltb y h) eqn:Eyh.
    + injection Hs as <- <-.
      apply fuzzymatch_ltb_lt in Eyh.
      destruct Hx as [<-|Hx].
      * now apply fuzzymatch_lt_asym.
      * eapply IH; eauto.
    + injection Hs as <- <-.
      assert (Nyh : ~ fuzzymatch_lt y h).
      { rewrite <- fuzzymatch_ltb_lt. congruence. }
      destruct Hx as [<-|Hx].
      * intros C. exact (fuzzymatch_lt_asym _ _ C C).
      * intros C. destruct (fuzzymatch_lt_cotrans _ h _ C) as [D|D].
        -- contradiction.
        -- eapply IH; eauto.
Qed.

(** ** fuzzymatch_iter *)

Lemma fuzzymatch_iter_stream (haystack : list string) (needle : string)
      (min_ratio : Q) :
  fuzzymatch_iter haystack needle min_ratio
  = match_stream haystack needle min_ratio.
Proof.
  unfold match_stream.
  induction haystack as [|key h IH]; simpl; [reflexivity|].
  destruct (Qle_bool min_ratio (similarity_ratio needle key)); simpl;
    now rewrite IH.
Qed.

Lemma fuzzymatch_iter_In (haystack : list string) (needle : string)
      (min_ratio : Q) (x : FuzzyMatch) :
  In x (fuzzymatch_iter haystack needle min_ratio) <->
  In (value x) haystack /\ ratio x = similarity_ratio needle (value x)
  /\ (min_ratio <= ratio x)%Q.
Proof.
  rewrite fuzzymatch_iter_stream. unfold match_stream.
  rewrite in_map_iff. split.
  - intros (c & <- & Hc). apply filter_In in Hc as [Hin Hle].
    simpl. apply Qle_bool_iff in Hle. auto.
  - intros (Hin & Hr & Hle). exists (value x). split.
    + destruct x as [r v]; simpl in *. now subst.
    + apply filter_In. split; [assumption|].
      apply Qle_bool_iff. now rewrite <- Hr.
Qed.

(** C5: [fuzzymatch_iter] yields exactly the candidates whose ratio with
    the needle is at least [min_ratio], each paired with that ratio, in
    the order of the haystack: it is the haystack filtered by the
    threshold, every kept candidate carrying its ratio. *)
Theorem fuzzymatch_iter_exact (haystack : list string) (needle : string)
        (min_ratio : Q) :
  fuzzymatch_iter haystack needle min_ratio
  = match_stream haystack needle min_ratio
  /\ map value (fuzzymatch_iter haystack needle min_ratio)
     = filter (fun c => Qle_bool min_ratio (similarity_ratio needle c))
              haystack
  /\ Forall (fun x => ratio x = similarity_ratio needle (value x)
                      /\ (min_ratio <= ratio x)%Q)
            (fuzzymatch_iter haystack needle min_ratio).
Proof.
  split; [apply fuzzymatch_iter_stream|]. split.
  - rewrite fuzzymatch_iter_stream. unfold match_stream.
    rewrite map_map. simpl. apply map_id.
  - apply Forall_forall. intros x Hx.
    now apply fuzzymatch_iter_In in Hx.
Qed.

(** ** Facts about the matcher *)

Module SequenceMatcherFacts.
Import SequenceMatcher MatcherSpec.

Lemma j2len_empty_bounded (alo blo i : nat) :
  row_bounded alo blo i j2len_empty.
Proof. intros j. unfold j2len_empty. lia. Qed.

Lemma j2len_get_pred_bounded (alo blo i j : nat) (j2len : j2len_t) :
  row_bounded alo blo i j2len -> blo <= j ->
  j2len_get_pred j2len j <= i - alo /\
  j2len_get_pred j2len j <= j - blo.
Proof.
  intros H Hj. destruct j as [|j']; cbn [j2len_get_pred]; [lia|].
  destruct (H j'). lia.
Qed.

Lemma inner_loop_within (js : list nat) (i alo ahi blo bhi : nat)
      (j2len newj2len : j2len_t) (best : Match) :
  alo <= i < ahi ->
  row_bounded alo blo i j2len ->
  row_bounded alo blo (S i) newj2len ->
  within alo ahi blo bhi best ->
  within alo ahi blo bhi
         (snd (inner_loop js i blo bhi j2len newj2len best)) /\
  row_bounded alo blo (S i)
              (fst (inner_loop js i blo bhi j2len newj2len best)).
Proof.
  intros Hi Hrow. revert newj2len best.
  induction js as [|j js IH]; intros newj2len best Hnew Hbest; simpl.
  - auto.
  - destruct (j <? blo) eqn:Elo; [now apply IH|].
    destruct (bhi <=? j) eqn:Ehi; [now auto|].
    apply Nat.ltb_ge in Elo. apply Nat.leb_gt in Ehi.
    destruct (j2len_get_pred_bounded alo blo i j j2len Hrow Elo) as [Ka Kb].
    apply IH.
    + intros x. unfold j2len_set.
      destruct (x =? j) eqn:Ex; [|apply Hnew].
      apply Nat.eqb_eq in Ex. subst x. lia.
    + destruct (size best <? j2len_get_pred j2len j + 1); [|assumption].
      unfold within; simpl. lia.
Qed.

Lemma outer_loop_within (len i alo ahi blo bhi : nat) (a : list elt)
      (b2j : b2j_t) (j2len : j2len_t) (best : Match) :
  alo <= i -> i + len <= ahi ->
  row_bounded alo blo i j2len ->
  within alo ahi blo bhi best ->
  within alo ahi blo bhi
         (outer_loop (seq i len) a b2j blo bhi j2len best).
Proof.
  revert i j2len best.
  induction len as [|len IH]; intros i j2len best Hlo Hhi Hrow Hbest;
    simpl; [assumption|].
  destruct (inner_loop (indices_of a b2j i) i blo bhi j2len j2len_empty best)
    as [newj2len best'] eqn:E.
  destruct (inner_loop_within (indices_of a b2j i) i alo ahi blo bhi
              j2len j2len_empty best) as [Hb Hr];
    try assumption; try lia.
  { apply j2len_empty_bounded. }
  rewrite E in Hb, Hr. simpl in Hb, Hr.
  apply IH; try assumption; lia.
Qed.

Lemma extend_left_within (fuel : nat) (junk : bool) (a b : list elt)
      (alo ahi blo bhi : nat) (m : Match) :
  within alo ahi blo bhi m ->
  within alo ahi blo bhi (extend_left fuel junk a b alo blo m).
Proof.
  revert m. induction fuel as [|fuel IH]; intros m Hm; simpl;
    [assumption|].
  destruct ((alo <? m_a m) && (blo <? m_b m)
            && Bool.eqb (junk_at b (m_b m - 1)) junk
            && same_at a b (m_a m - 1) (m_b m - 1)) eqn:E; [|assumption].
  apply andb_prop in E as [E _]. apply andb_prop in E as [E _].
  apply andb_prop in E as [Ea Eb].
  apply Nat.ltb_lt in Ea, Eb.
  apply IH. unfold within in *; simpl. lia.
Qed.

Lemma extend_right_within (fuel : nat) (junk : bool) (a b : list elt)
      (alo ahi blo bhi : nat) (m : Match) :
  within alo ahi blo bhi m ->
  within alo ahi blo bhi (extend_right fuel junk a b ahi bhi m).
Proof.
  revert m. induction fuel as [|fuel IH]; intros m Hm; simpl;
    [assumption|].
  destruct ((m_a m + size m <? ahi) && (m_b m + size m <? bhi)
            && Bool.eqb (junk_at b (m_b m + size m)) junk
            && same_at a b (m_a m + size m) (m_b m + size m)) eqn:E;
    [|assumption].
  apply andb_prop in E as [E _]. apply andb_prop in E as [E _].
  apply andb_prop in E as [Ea Eb].
  apply Nat.ltb_lt in Ea, Eb.
  apply IH. unfold within in *; simpl. lia.
Qed.

(** The two extension loops stop on their own condition: rounds beyond
    the count given in [find_longest_match] change nothing. *)
Lemma extend_left_fuel (fuel : nat) (junk : bool) (a b : list elt)
      (alo blo : nat) :
  forall m : Match,
    m_a m <= fuel ->
    extend_left (S fuel) junk a b alo blo m
    = extend_left fuel junk a b alo blo m.
Proof.
  induction fuel as [|fuel IH]; intros m Hm.
  - cbn [extend_left].
    replace (alo <? m_a m) with false; [reflexivity|].
    symmetry. apply Nat.ltb_ge. lia.
  - cbn [extend_left] in *.
    destruct ((alo <? m_a m) && (blo <? m_b m)
              && Bool.eqb (junk_at b (m_b m - 1)) junk
              && same_at a b (m_a m - 1) (m_b m - 1)) eqn:E;
      [|reflexivity].
    apply IH. cbn [m_a]. lia.
Qed.

Lemma extend_right_fuel (fuel : nat) (junk : bool) (a b : list elt)
      (ahi bhi : nat) :
  forall m : Match,
    ahi - (m_a m + size m) <= fuel ->
    extend_right (S fuel) junk a b ahi bhi m
    = extend_right fuel junk a b ahi bhi m.
Proof.
  induction fuel as [|fuel IH]; intros m Hm.
  - cbn [extend_right].
    replace (m_a m + size m <? ahi) with false; [reflexivity|].
    symmetry. apply Nat.ltb_ge. lia.
  - cbn [extend_right] in *.
    destruct ((m_a m + size m <? ahi) && (m_b m + size m <? bhi)
              && Bool.eqb (junk_at b (m_b m + size m)) junk
              && same_at a b (m_a m + size m) (m_b m + size m)) eqn:E;
      [|reflexivity].
    apply IH. cbn [m_a size]. lia.
Qed.

(** The docstring's bounds: [alo <= i <= i+k <= ahi] and
    [blo <= j <= j+k <= bhi]. *)
Lemma find_longest_match_within (a b : list elt) (b2j : b2j_t)
      (alo ahi blo bhi : nat) :
  alo <= ahi -> blo <= bhi ->
  within alo ahi blo bhi (find_longest_match a b b2j alo ahi blo bhi).
Proof.
  intros Ha Hb. unfold find_longest_match.
  apply extend_right_within, extend_left_within,
    extend_right_within, extend_left_within.
  apply outer_loop_within; try lia.
  - apply j2len_empty_bounded.
  - unfold within; simpl. lia.
Qed.

(** *** The queue loop ends, and its blocks fit in both sequences *)

Lemma total_cons (x : Match) (l : list Match) :
  total (x :: l) = size x + total l.
Proof. reflexivity. Qed.

Lemma total_app (l1 l2 : list Match) :
  total (l1 ++ l2) = total l1 + total l2.
Proof.
  induction l1 as [|x l1 IH]; [reflexivity|].
  rewrite <- app_comm_cons, !total_cons, IH. lia.
Qed.

Lemma blocks_loop_fuel (a b : list elt) (b2j : b2j_t) (fuel : nat) :
  forall (queue : list range) (acc : list Match),
    Forall range_ok queue -> weight queue <= fuel ->
    exists l, blocks_loop fuel a b b2j queue acc = Some l /\
              total l <= total acc + span_a queue /\
              total l <= total acc + span_b queue.
Proof.
  induction fuel as [|fuel IH]; intros queue acc Hok Hw.
  - destruct queue as [|r q].
    + exists acc. simpl. repeat split; lia.
    + unfold weight in Hw. simpl in Hw. lia.
  - destruct queue as [|[[[alo ahi] blo] bhi] q].
    + exists acc. simpl. repeat split; lia.
    + inversion Hok as [|r' q' Hr Hq]; subst.
      destruct Hr as [Ha Hb].
      pose proof (find_longest_match_within a b b2j alo ahi blo bhi Ha Hb)
        as (W1 & W2 & W3 & W4).
      cbn [blocks_loop].
      set (x := find_longest_match a b b2j alo ahi blo bhi) in *.
      unfold weight in Hw. cbn [span_a List.length] in Hw.
      destruct (size x =? 0) eqn:Ek.
      * destruct (IH q acc Hq) as (l & El & La & Lb).
        { unfold weight. lia. }
        exists l. cbn [span_a span_b]. repeat split; [assumption|lia|lia].
      * apply Nat.eqb_neq in Ek.
        set (q1 := if (alo <? m_a x) && (blo <? m_b x)
                   then (alo, m_a x, blo, m_b x) :: q else q).
        set (q2 := if (m_a x + size x <? ahi) && (m_b x + size x <? bhi)
                   then (m_a x + size x, ahi, m_b x + size x, bhi) :: q1
                   else q1).
        assert (H1 : Forall range_ok q1 /\
                     span_a q1 <= (m_a x - alo) + span_a q /\
                     span_b q1 <= (m_b x - blo) + span_b q /\
                     List.length q1 <= 1 + List.length q).
        { unfold q1. destruct ((alo <? m_a x) && (blo <? m_b x)).
          - cbn [span_a span_b List.length]. repeat split; try lia.
            constructor; [|assumption]. simpl. lia.
          - repeat split; try lia. assumption. }
        destruct H1 as (F1 & A1 & B1 & L1).
        assert (H2 : Forall range_ok q2 /\
                     span_a q2 + size x <= (ahi - alo) + span_a q /\
                     span_b q2 + size x <= (bhi - blo) + span_b q /\
                     List.length q2 <= 2 + List.length q).
        { unfold q2.
          destruct ((m_a x + size x <? ahi) && (m_b x + size x <? bhi)).
          - cbn [span_a span_b List.length]. repeat split; try lia.
            constructor; [|assumption]. simpl. lia.
          - repeat split; try lia. assumption. }
        destruct H2 as (F2 & A2 & B2 & L2).
        destruct (IH q2 (acc ++ [x]) F2) as (l & El & La & Lb).
        { unfold weight. lia. }
        exists l. rewrite total_app, total_cons in La, Lb.
        cbn [total fold_right] in La, Lb.
        cbn [span_a span_b]. repeat split; [assumption|lia|lia].
Qed.

Lemma total_sort_insert (x : Match) (l : list Match) :
  total (sort_insert x l) = size x + total l.
Proof.
  induction l as [|y l IH]; [reflexivity|].
  cbn [sort_insert]. destruct (match_ltb y x); [|reflexivity].
  rewrite !total_cons, IH. lia.
Qed.

Lemma total_sort_blocks (l : list Match) :
  total (sort_blocks l) = total l.
Proof.
  unfold sort_blocks.
  assert (G : forall acc, total (fold_left (fun acc x => sort_insert x acc)
                                           l acc) = total l + total acc).
  { induction l as [|x l IH]; intros acc; [reflexivity|].
    cbn [fold_left]. rewrite IH, total_sort_insert, total_cons. lia. }
  rewrite G. cbn [total fold_right]. lia.
Qed.

Lemma total_collapse (blocks : list Match) :
  forall (cur : Match) (non_adjacent : list Match),
    total (collapse blocks cur non_adjacent)
    = total blocks + size cur + total non_adjacent.
Proof.
  induction blocks as [|x blocks IH]; intros cur acc; cbn [collapse].
  - destruct (size cur =? 0) eqn:E.
    + apply Nat.eqb_eq in E. cbn [total fold_right]. lia.
    + rewrite total_app, total_cons. cbn [total fold_right]. lia.
  - rewrite total_cons.
    destruct ((m_a cur + size cur =? m_a x)
              && (m_b cur + size cur =? m_b x)).
    + rewrite IH. cbn [size]. lia.
    + rewrite IH. destruct (size cur =? 0) eqn:E.
      * apply Nat.eqb_eq in E. lia.
      * rewrite total_app, total_cons. cbn [total fold_right]. lia.
Qed.

(** The queue loop of [get_matching_blocks] always ends within its
    [2 * len(a) + 1] rounds. *)
Lemma get_matching_blocks_loop_ends (a b : list elt) :
  exists l,
    blocks_loop (2 * List.length a + 1) a b (chain_b b)
                [(0, List.length a, 0, List.length b)] [] = Some l /\
    total l <= List.length a /\ total l <= List.length b.
Proof.
  destruct (blocks_loop_fuel a b (chain_b b) (2 * List.length a + 1)
              [(0, List.length a, 0, List.length b)] [])
    as (l & El & La & Lb).
  - constructor; [|constructor]. simpl. lia.
  - unfold weight. simpl. lia.
  - exists l. simpl in La, Lb. repeat split; [assumption|lia|lia].
Qed.

Lemma matches_le (a b : list elt) :
  matches a b <= List.length a /\ matches a b <= List.length b.
Proof.
  unfold matches, get_matching_blocks.
  destruct (get_matching_blocks_loop_ends a b) as (l & El & La & Lb).
  rewrite El. fold (total (collapse (sort_blocks l) (mkMatch 0 0 0) []
                             ++ [mkMatch (List.length a) (List.length b) 0])).
  rewrite total_app, total_collapse, total_sort_blocks, total_cons.
  cbn [total fold_right size]. lia.
Qed.

Lemma Zpos_of_nat (n : nat) : n <> 0 -> Zpos (Pos.of_nat n) = Z.of_nat n.
Proof.
  intros H. rewrite <- positive_nat_Z. now rewrite Nat2Pos.id.
Qed.

Lemma calculate_ratio_bounds (m len : nat) :
  2 * m <= len -> (0 <= calculate_ratio m len <= 1)%Q.
Proof.
  intros H. unfold calculate_ratio.
  destruct (len =? 0) eqn:E.
  - split; discriminate.
  - apply Nat.eqb_neq in E. unfold Qle. simpl Qnum. simpl Qden.
    rewrite Zpos_of_nat by assumption. lia.
Qed.

(** The ratio is a number of [[0, 1]]. *)
Lemma ratio_bounds (a b : list elt) : (0 <= ratio a b <= 1)%Q.
Proof.
  unfold ratio. apply calculate_ratio_bounds.
  destruct (matches_le a b). lia.
Qed.

(** *** The index lists of [chain_b] *)

Lemma chain_enumerate_positions (b : list elt) :
  forall (i : nat) (m : b2j_t) (c : elt),
    chain_enumerate b i m c = m c ++ positions c b i.
Proof.
  induction b as [|e b IH]; intros i m c; simpl.
  - now rewrite app_nil_r.
  - rewrite IH. unfold setdefault_append.
    destruct (Ascii.eqb c e); [|reflexivity].
    now rewrite <- app_assoc.
Qed.

Lemma positions_In (c : elt) (b : list elt) :
  forall i j, In j (positions c b i) <->
              i <= j /\ nth_error b (j - i) = Some c.
Proof.
  induction b as [|e b IH]; intros i j; simpl.
  - split; [contradiction|]. intros [_ H].
    destruct (j - i); discriminate.
  - destruct (Ascii.eqb c e) eqn:E.
    + apply Ascii.eqb_eq in E. subst e. simpl. rewrite IH. split.
      * intros [<-|[H1 H2]].
        -- rewrite Nat.sub_diag. auto.
        -- split; [lia|]. replace (j - i) with (S (j - S i)) by lia.
           exact H2.
      * intros [H1 H2]. destruct (j - i) as [|t] eqn:D.
        -- left. lia.
        -- right. split; [lia|]. replace (j - S i) with t by lia.
           exact H2.
    + apply Ascii.eqb_neq in E. rewrite IH. split.
      * intros [H1 H2]. split; [lia|].
        replace (j - i) with (S (j - S i)) by lia. exact H2.
      * intros [H1 H2]. destruct (j - i) as [|t] eqn:D.
        -- simpl in H2. congruence.
        -- split; [lia|]. replace (j - S i) with t by lia. exact H2.
Qed.

Lemma positions_sorted (c : elt) (b : list elt) :
  forall i, StronglySorted lt (positions c b i).
Proof.
  induction b as [|e b IH]; intros i; simpl; [constructor|].
  destruct (Ascii.eqb c e); [|apply IH].
  constructor; [apply IH|].
  apply Forall_forall. intros j Hj.
  apply positions_In in Hj. lia.
Qed.

(** *** A sequence matched against itself *)

Section SameSequence.

Variable s : list elt.

Lemma run_eq (i j : nat) :
  run s i j = if ok s i j then S (prev_run s i j) else 0.
Proof. destruct i; reflexivity. Qed.

Lemma j2len_get_pred_row (j2len : j2len_t) (i j : nat) :
  (forall x, j2len x = row_run s i x) ->
  j2len_get_pred j2len j = prev_run s i j.
Proof.
  intros H. destruct j as [|j']; simpl.
  - now destruct i.
  - rewrite H. now destruct i.
Qed.

Lemma ok_diag (i j : nat) :
  ok s i j = true -> ok s i i = true /\ ok s j j = true.
Proof.
  unfold ok.
  destruct (nth_error s i) as [x|], (nth_error s j) as [y|];
    try discriminate.
  intros H. apply andb_prop in H as [E N].
  apply Ascii.eqb_eq in E. subst y.
  now rewrite Ascii.eqb_refl, N.
Qed.

(** No run is longer than the runs of the diagonal at its two ends. *)
Lemma run_diag :
  forall i j, run s i j <= run s i i /\ run s i j <= run s j j.
Proof.
  induction i as [|i' IH]; intros j; rewrite !run_eq;
    destruct (ok s _ j) eqn:E; try lia;
    destruct (ok_diag _ _ E) as [Ei Ej]; rewrite Ei, Ej.
  - simpl. lia.
  - destruct j as [|j']; simpl; [lia|].
    destruct (IH j'). lia.
Qed.

Lemma indices_of_same (i : nat) :
  indices_of s (chain_b s) i =
  match nth_error s i with
  | Some c => if nonpopular s c then positions c s 0 else []
  | None => []
  end.
Proof.
  unfold indices_of, chain_b, nonpopular.
  destruct (nth_error s i) as [c|]; [|reflexivity].
  destruct (popular _ _ c); simpl; [reflexivity|].
  now rewrite chain_enumerate_positions.
Qed.

Lemma indices_of_row (i : nat) :
  i < List.length s ->
  StronglySorted lt (indices_of s (chain_b s) i) /\
  (forall j, In j (indices_of s (chain_b s) i) ->
             ok s i j = true /\ j < List.length s) /\
  (forall j, ~ In j (indices_of s (chain_b s) i) -> run s i j = 0) /\
  (In i (indices_of s (chain_b s) i) \/ run s i i = 0).
Proof.
  intros Hi. rewrite indices_of_same.
  destruct (nth_error s i) as [c|] eqn:En;
    [|apply nth_error_None in En; lia].
  destruct (nonpopular s c) eqn:Np.
  - split; [apply positions_sorted|]. split; [|split].
    + intros j Hj. apply positions_In in Hj as [_ Hj].
      rewrite Nat.sub_0_r in Hj. split.
      * unfold ok. now rewrite En, Hj, Ascii.eqb_refl, Np.
      * apply nth_error_Some. congruence.
    + intros j Hj. rewrite run_eq. unfold ok. rewrite En.
      destruct (nth_error s j) as [y|] eqn:Ey; [|reflexivity].
      destruct (Ascii.eqb_spec c y) as [<-|]; [|reflexivity].
      exfalso. apply Hj, positions_In. rewrite Nat.sub_0_r.
      split; [lia|assumption].
    + left. apply positions_In. rewrite Nat.sub_0_r.
      split; [lia|assumption].
  - assert (Z : forall j, run s i j = 0).
    { intros j. rewrite run_eq. unfold ok. rewrite En.
      destruct (nth_error s j); [|reflexivity].
      now rewrite Np, andb_false_r. }
    split; [constructor|]. split; [contradiction|]. auto.
Qed.

Lemma inner_loop_diag (i : nat) (j2len : j2len_t) :
  (forall x, j2len x = row_run s i x) ->
  forall (js : list nat) (newj2len : j2len_t) (best : Match),
    StronglySorted lt js ->
    (forall j, In j js -> ok s i j = true /\ j < List.length s) ->
    (forall j, ~ In j js -> newj2len j = run s i j) ->
    m_a best = m_b best ->
    (forall i' j, i' < i -> run s i' j <= size best) ->
    (In i js \/ run s i i <= size best) ->
    (forall j, fst (inner_loop js i 0 (List.length s) j2len newj2len best) j
               = run s i j) /\
    m_a (snd (inner_loop js i 0 (List.length s) j2len newj2len best))
    = m_b (snd (inner_loop js i 0 (List.length s) j2len newj2len best)) /\
    size best
    <= size (snd (inner_loop js i 0 (List.length s) j2len newj2len best)) /\
    run s i i
    <= size (snd (inner_loop js i 0 (List.length s) j2len newj2len best)).
Proof.
  intros Hrow.
  induction js as [|j js IH]; intros nj best Hs Hok Hnj Hd Hprev Hi;
    cbn [inner_loop].
  - simpl. repeat split; auto.
    destruct Hi as [[]|Hi]. exact Hi.
  - destruct (Hok j (or_introl eq_refl)) as [Oj Lj].
    change (j <? 0) with false. cbv iota.
    rewrite (proj2 (Nat.leb_gt _ _) Lj).
    rewrite (j2len_get_pred_row j2len i j Hrow).
    assert (Hk : prev_run s i j + 1 = run s i j).
    { rewrite run_eq, Oj. lia. }
    rewrite Hk.
    inversion Hs as [|? ? Hs' Hall]; subst.
    rewrite Forall_forall in Hall.
    destruct (run_diag i j) as [D1 D2].
    assert (Hno : j <> i -> (size best <? run s i j) = false).
    { intros Hne. apply Nat.ltb_ge.
      destruct (lt_dec j i) as [Hlt|Hge].
      - specialize (Hprev j j Hlt). lia.
      - destruct Hi as [[Hi|Hi]|Hi].
        + congruence.
        + specialize (Hall i Hi). lia.
        + lia. }
    set (best' := if size best <? run s i j
                  then mkMatch (i + 1 - run s i j) (j + 1 - run s i j)
                               (run s i j)
                  else best).
    assert (Hsz : size best <= size best' /\ run s i j <= size best').
    { unfold best'. destruct (size best <? run s i j) eqn:Eu; simpl.
      - apply Nat.ltb_lt in Eu. lia.
      - apply Nat.ltb_ge in Eu. lia. }
    destruct (IH (j2len_set nj j (run s i j)) best') as (C1 & C2 & C3 & C4).
    + assumption.
    + intros x Hx. apply Hok. now right.
    + intros x Hx. unfold j2len_set.
      destruct (x =? j) eqn:Ex.
      * apply Nat.eqb_eq in Ex. now subst.
      * apply Nat.eqb_neq in Ex. apply Hnj.
        intros [E|E]; [congruence|contradiction].
    + unfold best'. destruct (size best <? run s i j) eqn:Eu; [|exact Hd].
      destruct (Nat.eq_dec j i) as [->|Hne]; [reflexivity|].
      pose proof (Hno Hne) as C. congruence.
    + intros i' x Hlt. specialize (Hprev i' x Hlt). lia.
    + destruct Hi as [[Hi|Hi]|Hi].
      * subst j. right. lia.
      * now left.
      * right. lia.
    + repeat split; try assumption. lia.
Qed.

Lemma outer_loop_diag (len : nat) :
  forall (i : nat) (j2len : j2len_t) (best : Match),
    i + len = List.length s ->
    (forall x, j2len x = row_run s i x) ->
    m_a best = m_b best ->
    (forall i' j, i' < i -> run s i' j <= size best) ->
    m_a (outer_loop (seq i len) s (chain_b s) 0 (List.length s) j2len best)
    = m_b (outer_loop (seq i len) s (chain_b s) 0 (List.length s)
                      j2len best).
Proof.
  induction len as [|len IH]; intros i j2len best Hlen Hrow Hd Hprev;
    cbn [seq outer_loop]; [exact Hd|].
  destruct (indices_of_row i) as (R1 & R2 & R3 & R4); [lia|].
  destruct (inner_loop_diag i j2len Hrow (indices_of s (chain_b s) i)
              j2len_empty best) as (C1 & C2 & C3 & C4);
    try assumption.
  { intros j Hj. now rewrite R3. }
  { destruct R4 as [R4|R4]; [now left|right; lia]. }
  destruct (inner_loop (indices_of s (chain_b s) i) i 0 (List.length s)
                       j2len j2len_empty best) as [newj2len best'].
  simpl in C1, C2, C3, C4.
  apply IH; try assumption; try lia.
  intros i' j Hlt.
  destruct (Nat.eq_dec i' i) as [->|Hne].
  - destruct (run_diag i j). lia.
  - assert (Hlt' : i' < i) by lia.
    specialize (Hprev i' j Hlt'). lia.
Qed.

Lemma extend_left_same (fuel : nat) :
  forall m : Match,
    m_a m = m_b m -> m_a m <= fuel -> m_a m + size m <= List.length s ->
    extend_left fuel false s s 0 0 m = mkMatch 0 0 (m_a m + size m).
Proof.
  induction fuel as [|fuel IH]; intros [i j k]; simpl; intros <- Hf Hn.
  - replace i with 0 by lia. reflexivity.
  - destruct i as [|p]; [reflexivity|].
    cbn [Nat.ltb Nat.leb andb].
    replace (S p - 1) with p by lia.
    unfold junk_at, same_at.
    destruct (nth_error s p) as [x|] eqn:Ex;
      [|apply nth_error_None in Ex; lia].
    cbn [isbjunk Bool.eqb andb]. rewrite Ascii.eqb_refl.
    rewrite IH; simpl; try lia. f_equal. lia.
Qed.

Lemma extend_right_same (fuel : nat) :
  forall m : Match,
    m_a m = m_b m -> m_a m + size m + fuel = List.length s ->
    extend_right fuel false s s (List.length s) (List.length s) m
    = mkMatch (m_a m) (m_b m) (size m + fuel).
Proof.
  induction fuel as [|fuel IH]; intros [i j k]; simpl; intros <- Hn.
  - f_equal. lia.
  - rewrite (proj2 (Nat.ltb_lt _ _)) by lia. cbn [andb].
    unfold junk_at, same_at.
    destruct (nth_error s (i + k)) as [x|] eqn:Ex;
      [|apply nth_error_None in Ex; lia].
    cbn [isbjunk Bool.eqb andb]. rewrite Ascii.eqb_refl.
    rewrite IH; simpl; try lia. f_equal. lia.
Qed.

(** Matched against itself a sequence is one block, whatever the
    autojunk heuristic removed from [b2j]. *)
Lemma find_longest_match_same :
  find_longest_match s s (chain_b s) 0 (List.length s) 0 (List.length s)
  = mkMatch 0 0 (List.length s).
Proof.
  unfold find_longest_match. rewrite Nat.sub_0_r.
  set (m0 := outer_loop (seq 0 (List.length s)) s (chain_b s) 0
                        (List.length s) j2len_empty (mkMatch 0 0 0)).
  assert (Hd : m_a m0 = m_b m0).
  { apply outer_loop_diag; try reflexivity.
    intros i' j Hlt. lia. }
  assert (Hw : within 0 (List.length s) 0 (List.length s) m0).
  { apply outer_loop_within; try lia.
    - apply j2len_empty_bounded.
    - unfold within; simpl. lia. }
  destruct Hw as (_ & Hw & _).
  rewrite (extend_left_same (m_a m0) m0 Hd (le_n _) Hw).
  cbn [m_a m_b size]. rewrite Nat.add_0_l.
  rewrite (extend_right_same _ (mkMatch 0 0 (m_a m0 + size m0)));
    cbn [m_a m_b size]; try reflexivity; try lia.
  replace (m_a m0 + size m0 + (List.length s - (m_a m0 + size m0)))
    with (List.length s) by lia.
  cbn [extend_left]. rewrite Nat.add_0_l, Nat.sub_diag.
  reflexivity.
Qed.

Lemma matches_same : matches s s = List.length s.
Proof.
  unfold matches, get_matching_blocks.
  destruct s as [|c s'] eqn:Es; [reflexivity|].
  rewrite <- Es.
  replace (2 * List.length s + 1) with (S (2 * List.length s)) by lia.
  cbn [blocks_loop]. rewrite find_longest_match_same.
  cbn [m_a m_b size].
  assert (Hn : List.length s <> 0) by (rewrite Es; discriminate).
  rewrite (proj2 (Nat.eqb_neq _ _) Hn).
  rewrite Nat.ltb_irrefl. cbn [andb Nat.add].
  rewrite Nat.ltb_irrefl. cbn [andb].
  destruct (2 * List.length s); cbn [blocks_loop app];
    match goal with
    | |- fold_right ?f 0 ?l = _ => change (total l = List.length s)
    end;
    rewrite total_app, total_collapse, total_sort_blocks;
    cbn [total fold_right size]; lia.
Qed.

End SameSequence.

Lemma calculate_ratio_same (n : nat) : (calculate_ratio n (n + n) == 1)%Q.
Proof.
  unfold calculate_ratio. destruct (n + n =? 0) eqn:E; [reflexivity|].
  apply Nat.eqb_neq in E. unfold Qeq. simpl Qnum. simpl Qden.
  rewrite Zpos_of_nat by assumption. lia.
Qed.

Lemma ratio_same (s : list elt) : (ratio s s == 1)%Q.
Proof. unfold ratio. rewrite matches_same. apply calculate_ratio_same. Qed.

Lemma calculate_ratio_zero (len : nat) :
  len <> 0 -> (calculate_ratio 0 len == 0)%Q.
Proof.
  intros H. unfold calculate_ratio.
  rewrite (proj2 (Nat.eqb_neq _ _) H). reflexivity.
Qed.

Lemma ratio_nil_r (a : list elt) : a <> [] -> (ratio a [] == 0)%Q.
Proof.
  intros H. unfold ratio.
  destruct (matches_le a []) as [_ Hm]. simpl in Hm.
  replace (matches a []) with 0 by lia.
  apply calculate_ratio_zero. destruct a; [congruence|simpl; lia].
Qed.

Lemma ratio_nil_l (b : list elt) : b <> [] -> (ratio [] b == 0)%Q.
Proof.
  intros H. unfold ratio.
  destruct (matches_le [] b) as [Hm _]. simpl in Hm.
  replace (matches [] b) with 0 by lia.
  apply calculate_ratio_zero. destruct b; [congruence|simpl; lia].
Qed.

End SequenceMatcherFacts.

(** ** The similarity ratio *)

Lemma list_ascii_of_string_nil (s : string) :
  list_ascii_of_string s = [] -> s = EmptyString.
Proof. destruct s; [reflexivity|discriminate]. Qed.

Lemma similarity_ratio_bounds (a b : string) :
  (0 <= similarity_ratio a b <= 1)%Q.
Proof. apply SequenceMatcherFacts.ratio_bounds. Qed.

Lemma similarity_ratio_empty_r (a : string) :
  a <> EmptyString -> (similarity_ratio a "" == 0)%Q.
Proof.
  intros H. apply SequenceMatcherFacts.ratio_nil_r.
  intros C. now apply list_ascii_of_string_nil in C.
Qed.

Lemma similarity_ratio_empty_l (b : string) :
  b <> EmptyString -> (similarity_ratio "" b == 0)%Q.
Proof.
  intros H. apply SequenceMatcherFacts.ratio_nil_l.
  intros C. now apply list_ascii_of_string_nil in C.
Qed.

(** C3: the ratio of a string with itself is 1: the matcher finds the
    whole string as one block, also when the autojunk heuristic has
    dropped popular characters from its index. *)
Theorem similarity_ratio_self (s : string) : (similarity_ratio s s == 1)%Q.
Proof.
  unfold similarity_ratio, SequenceMatcher.ratio.
  rewrite SequenceMatcherFacts.matches_same.
  apply SequenceMatcherFacts.calculate_ratio_same.
Qed.

(** C4, as the spec states it, fails: ["tide"] against ["diet"] scores
    1/4, ["diet"] against ["tide"] scores 1/2. *)
Lemma similarity_ratio_not_symmetric :
  ~ (forall a b : string,
        (similarity_ratio a b == similarity_ratio b a)%Q).
Proof.
  intros H. specialize (H "tide"%string "diet"%string).
  vm_compute in H. discriminate H.
Qed.

(** C4, amended: the two argument orders give the same ratio when the
    strings are equal or when one of them is empty. *)
Theorem similarity_ratio_symmetric_cases (a b : string) :
  a = b \/ a = EmptyString \/ b = EmptyString ->
  (similarity_ratio a b == similarity_ratio b a)%Q.
Proof.
  intros [-> | [-> | ->]]; [reflexivity| |].
  - destruct (string_dec b "") as [->|Hb]; [reflexivity|].
    now rewrite similarity_ratio_empty_l, similarity_ratio_empty_r.
  - destruct (string_dec a "") as [->|Ha]; [reflexivity|].
    now rewrite similarity_ratio_empty_l, similarity_ratio_empty_r.
Qed.

Lemma similarity_ratio_symmetric_cases_witness :
  (similarity_ratio "stop" "" == similarity_ratio "" "stop")%Q.
Proof.
  apply (similarity_ratio_symmetric_cases "stop" "").
  right; right; reflexivity.
Defined.

(** C6: two empty strings score 1; a non-empty string and the empty
    string score 0, whichever of the two is the needle. *)
Theorem similarity_ratio_empty :
  (similarity_ratio "" "" == 1)%Q /\
  forall a : string,
    a <> EmptyString ->
    (similarity_ratio a "" == 0)%Q /\ (similarity_ratio "" a == 0)%Q.
Proof.
  split; [reflexivity|]. intros a Ha. split.
  - now apply similarity_ratio_empty_r.
  - now apply similarity_ratio_empty_l.
Qed.

Lemma similarity_ratio_empty_witness :
  (similarity_ratio "strt" "" == 0)%Q /\ (similarity_ratio "" "strt" == 0)%Q.
Proof.
  apply (proj2 similarity_ratio_empty "strt"%string). discriminate.
Defined.

(** ** fuzzymatch_best *)

Lemma string_ltb_false_leb (v w : string) :
  String.ltb v w = false -> String.leb w v = true.
Proof.
  unfold String.ltb, String.leb. rewrite (String.compare_antisym w v).
  now destruct (String.compare v w).
Qed.

Lemma fuzzymatch_best_head (haystack : list string) (needle : string)
      (min_ratio : Q) (v : string) :
  fuzzymatch_best haystack needle min_ratio = Some v ->
  exists m,
    value m = v /\
    In m (fuzzymatch_iter haystack needle min_ratio) /\
    forall x, In x (fuzzymatch_iter haystack needle min_ratio) ->
              ~ fuzzymatch_lt m x.
Proof.
  unfold fuzzymatch_best.
  destruct (sorted_reverse (fuzzymatch_iter haystack needle min_ratio))
    as [|m rest] eqn:E; [discriminate|].
  intros [= <-]. exists m. split; [reflexivity|]. split.
  - apply sorted_reverse_In. rewrite E. now left.
  - now apply (sorted_reverse_head _ _ _ E).
Qed.

(** C1: a value returned by [fuzzymatch_best] is an element of the
    haystack whose ratio clears [min_ratio]; no element that clears it
    has a greater ratio; among the elements of equal ratio it is the
    lexically largest; and when no element clears [min_ratio] the result
    is [None]. *)
Theorem fuzzymatch_best_correct (haystack : list string) (needle : string)
        (min_ratio : Q) :
  (forall v,
      fuzzymatch_best haystack needle min_ratio = Some v ->
      In v haystack /\
      (min_ratio <= similarity_ratio needle v)%Q /\
      (forall w, In w haystack ->
                 (min_ratio <= similarity_ratio needle w)%Q ->
                 (similarity_ratio needle w <= similarity_ratio needle v)%Q) /\
      (forall w, In w haystack ->
                 (similarity_ratio needle w == similarity_ratio needle v)%Q ->
                 String.leb w v = true)) /\
  ((forall w, In w haystack ->
              ~ (min_ratio <= similarity_ratio needle w)%Q) ->
   fuzzymatch_best haystack needle min_ratio = None).
Proof.
  assert (P : forall v,
             fuzzymatch_best haystack needle min_ratio = Some v ->
             In v haystack /\
             (min_ratio <= similarity_ratio needle v)%Q /\
             (forall w, In w haystack ->
                        (min_ratio <= similarity_ratio needle w)%Q ->
                        ~ fuzzymatch_lt
                            (mkFuzzyMatch (similarity_ratio needle v) v)
                            (mkFuzzyMatch (similarity_ratio needle w) w))).
  { intros v Hv.
    destruct (fuzzymatch_best_head _ _ _ _ Hv) as ([r v'] & Ev & Hin & Hmax).
    simpl in Ev. subst v'.
    apply fuzzymatch_iter_In in Hin as (Hin & Hr & Hle). simpl in *. subst r.
    repeat split; try assumption.
    intros w Hw Hlw. apply Hmax. apply fuzzymatch_iter_In. simpl. auto. }
  split.
  - intros v Hv. destruct (P v Hv) as (Hin & Hle & Hmax).
    repeat split; try assumption.
    + intros w Hw Hlw. apply Qnot_lt_le. intros C.
      apply (Hmax w Hw Hlw). now left.
    + intros w Hw Heq. apply string_ltb_false_leb.
      destruct (String.ltb v w) eqn:L; [|reflexivity]. exfalso.
      apply (Hmax w Hw); [now rewrite Heq|].
      right. simpl. split; [now symmetry|assumption].
  - intros Hnone.
    destruct (fuzzymatch_best haystack needle min_ratio) as [v|] eqn:E;
      [|reflexivity].
    destruct (P v eq_refl) as (Hin & Hle & _). now destruct (Hnone v Hin).
Qed.

Lemma fuzzymatch_best_correct_witness :
  (In "apple"%string ["apple"; "apply"; "orange"]%string /\
   (6 # 10 <= similarity_ratio "aplpe" "apple")%Q /\
   (forall w, In w ["apple"; "apply"; "orange"]%string ->
              (6 # 10 <= similarity_ratio "aplpe" w)%Q ->
              (similarity_ratio "aplpe" w <= similarity_ratio "aplpe" "apple")%Q) /\
   (forall w, In w ["apple"; "apply"; "orange"]%string ->
              (similarity_ratio "aplpe" w == similarity_ratio "aplpe" "apple")%Q ->
              String.leb w "apple" = true)) /\
  fuzzymatch_best ["orange"]%string "aplpe" (6 # 10) = None.
Proof.
  split.
  - apply (proj1 (fuzzymatch_best_correct
                    ["apple"; "apply"; "orange"]%string "aplpe" (6 # 10))).
    vm_compute. reflexivity.
  - apply (proj2 (fuzzymatch_best_correct ["orange"]%string "aplpe" (6 # 10))).
    intros w [<-|[]]. vm_compute. intros C. now apply C.
Defined.

(** ** Degenerate inputs *)

Lemma fuzzymatch_iter_none (haystack : list string) (needle : string)
      (min_ratio : Q) :
  (forall key, In key haystack ->
               ~ (min_ratio <= similarity_ratio needle key)%Q) ->
  fuzzymatch_iter haystack needle min_ratio = [].
Proof.
  induction haystack as [|key h IH]; intros H; simpl; [reflexivity|].
  destruct (Qle_bool min_ratio (similarity_ratio needle key)) eqn:E.
  - apply Qle_bool_iff in E. destruct (H key); [now left|assumption].
  - apply IH. intros k Hk. apply H. now right.
Qed.

Lemma fuzzymatch_iter_nil_results (haystack : list string) (needle : string)
      (fmt_many fmt_one fmt_none : string) (min_ratio : Q) :
  fuzzymatch_iter haystack needle min_ratio = [] ->
  fuzzymatch haystack needle min_ratio = [] /\
  fuzzymatch_best haystack needle min_ratio = None /\
  fuzzymatch_choices haystack needle fmt_many fmt_one fmt_none min_ratio
  = Some fmt_none /\
  didyoumean haystack needle fmt_many fmt_one fmt_none min_ratio
  = Some fmt_none.
Proof.
  intros H.
  unfold didyoumean, fuzzymatch_choices, fuzzymatch_best, fuzzymatch.
  rewrite H. simpl. auto.
Qed.

(** C9, as the spec states it, fails: an empty needle matches an empty
    candidate with ratio 1, so the stream is not empty. *)
Lemma degenerate_inputs_counterexample :
  ~ (forall (haystack : list string) (needle : string) (min_ratio : Q),
        haystack = [] \/ needle = EmptyString \/
        ~ (0 <= min_ratio /\ min_ratio <= 1)%Q ->
        fuzzymatch_iter haystack needle min_ratio = [] /\
        fuzzymatch_best haystack needle min_ratio = None).
Proof.
  intros H.
  destruct (H [EmptyString] EmptyString (6 # 10)) as [_ C];
    [right; left; reflexivity|].
  vm_compute in C. discriminate C.
Qed.

(** C9, amended: with an empty haystack, with [min_ratio > 1], or with an
    empty needle when [min_ratio > 0] and the haystack holds no empty
    string, [fuzzymatch_iter] and [fuzzymatch] yield nothing,
    [fuzzymatch_best] returns [None], and [fuzzymatch_choices] and
    [didyoumean] return [fmt_none]; none of them raises. *)
Theorem degenerate_inputs (haystack : list string) (needle : string)
        (fmt_many fmt_one fmt_none : string) (min_ratio : Q) :
  haystack = [] \/ (1 < min_ratio)%Q \/
  (needle = EmptyString /\ (0 < min_ratio)%Q /\ ~ In EmptyString haystack) ->
  fuzzymatch_iter haystack needle min_ratio = [] /\
  fuzzymatch haystack needle min_ratio = [] /\
  fuzzymatch_best haystack needle min_ratio = None /\
  fuzzymatch_choices haystack needle fmt_many fmt_one fmt_none min_ratio
  = Some fmt_none /\
  didyoumean haystack needle fmt_many fmt_one fmt_none min_ratio
  = Some fmt_none.
Proof.
  intros H.
  assert (E : fuzzymatch_iter haystack needle min_ratio = []).
  { destruct H as [-> | [H | (-> & Hpos & Hnot)]]; [reflexivity| |].
    - apply fuzzymatch_iter_none. intros key _ C.
      destruct (similarity_ratio_bounds needle key) as [_ B].
      apply (Qlt_irrefl 1). eapply Qlt_le_trans; [exact H|].
      eapply Qle_trans; eauto.
    - apply fuzzymatch_iter_none. intros key Hk C.
      assert (Hne : key <> EmptyString) by congruence.
      rewrite (similarity_ratio_empty_l key Hne) in C.
      apply (Qlt_irrefl 0). eapply Qlt_le_trans; eauto. }
  split; [exact E|]. now apply fuzzymatch_iter_nil_results.
Qed.

Lemma degenerate_inputs_witness :
  fuzzymatch_iter ["start"; "stop"]%string "" (6 # 10) = [] /\
  fuzzymatch ["start"; "stop"]%string "" (6 # 10) = [] /\
  fuzzymatch_best ["start"; "stop"]%string "" (6 # 10) = None /\
  fuzzymatch_choices ["start"; "stop"]%string "" "one of {alt}" "{alt}" "none"
                     (6 # 10) = Some "none"%string /\
  didyoumean ["start"; "stop"]%string "" "one of {alt}" "{alt}" "none"
             (6 # 10) = Some "none"%string.
Proof.
  apply (degenerate_inputs ["start"; "stop"]%string "").
  right; right. split; [reflexivity|]. split; [reflexivity|].
  intros [C|[C|[]]]; discriminate C.
Defined.

(** ** fuzzymatch_choices *)

(** C2, as the spec states it, fails: of ["start"] and ["stop"] only
    ["start"] clears 0.6 against ["strt"], and candidates keep the order
    of the haystack even when a later one has the greater ratio. *)
Lemma fuzzymatch_choices_counterexample :
  fuzzymatch_choices ["start"; "stop"]%string "strt"
                     "one of {alt}" "{alt}" "" (6 # 10)
  <> Some "one of start, stop"%string /\
  fuzzymatch ["stop"; "start"]%string "strt" (5 # 10)
  = ["stop"; "start"]%string /\
  (similarity_ratio "strt" "stop" < similarity_ratio "strt" "start")%Q.
Proof.
  split; [|split].
  - vm_compute. discriminate.
  - vm_compute. reflexivity.
  - vm_compute. reflexivity.
Qed.

(** C2, amended: the candidates substituted for [{alt}] are the haystack
    entries whose ratio is at least [min_ratio], in the order of the
    haystack; with ["start"; "stop"], ["strt"] and 0.6 only ["start"]
    clears the threshold (8/9 against 1/2) and the phrase is ["start"]. *)
Theorem fuzzymatch_choices_haystack_order (haystack : list string)
        (needle : string) (fmt_many fmt_one fmt_none : string)
        (min_ratio : Q) :
  fuzzymatch haystack needle min_ratio
  = filter (fun c => Qle_bool min_ratio (similarity_ratio needle c)) haystack
  /\ fuzzymatch_choices haystack needle fmt_many fmt_one fmt_none min_ratio
     = match filter (fun c => Qle_bool min_ratio (similarity_ratio needle c))
                    haystack with
       | [] => Some fmt_none
       | [c] => format_alt fmt_one c
       | alt => format_alt fmt_many (String.concat ", " alt)
       end
  /\ fuzzymatch_choices ["start"; "stop"]%string "strt"
                        "one of {alt}" "{alt}" "" (6 # 10)
     = Some "start"%string.
Proof.
  assert (E : fuzzymatch haystack needle min_ratio
              = filter (fun c => Qle_bool min_ratio (similarity_ratio needle c))
                       haystack).
  { unfold fuzzymatch. rewrite fuzzymatch_iter_stream. unfold match_stream.
    rewrite map_map. simpl. apply map_id. }
  split; [exact E|]. split; [|vm_compute; reflexivity].
  unfold fuzzymatch_choices. rewrite E.
  destruct (filter _ haystack) as [|c [|c' alt]]; reflexivity.
Qed.

(** ** title and abbr *)

(** C7: on ["foo-bar_baz"] the code returns ["Foo Barbaz"]: the
    underscore is deleted, not turned into a word break. *)
Theorem title_underscore : title "foo-bar_baz" = "Foo Barbaz"%string.
Proof. reflexivity. Qed.

(** C8: with [words=True] the code cuts ["hello world"] inside its first
    word. *)
Theorem abbr_words_splits_word :
  abbr "hello world" 7 "..." true = ([], "hell..."%string).
Proof. reflexivity. Qed.

(** C10: [abbr(s, 0, suffix, words=False)] returns [s] unchanged, after
    printing its arguments. *)
Theorem abbr_max_zero (s suffix : string) :
  abbr s 0 suffix false = ([(s, 0%Z, suffix)], s).
Proof. reflexivity. Qed.


(** ** Strings *)

Lemma append_nil_r (s : string) : (s ++ "")%string = s.
Proof. induction s as [|c s IH]; simpl; [reflexivity|now rewrite IH]. Qed.

Lemma append_assoc (s t u : string) :
  ((s ++ t) ++ u)%string = (s ++ (t ++ u))%string.
Proof. induction s as [|c s IH]; simpl; [reflexivity|now rewrite IH]. Qed.

Lemma length_append (s t : string) :
  String.length (s ++ t) = String.length s + String.length t.
Proof. induction s as [|c s IH]; simpl; [reflexivity|now rewrite IH]. Qed.

Lemma append_same_l (s t : string) : (s ++ t)%string = s -> t = EmptyString.
Proof.
  induction s as [|c s IH]; simpl; intros H; [assumption|].
  injection H as H. now apply IH.
Qed.

Lemma length_substring0 (n : nat) (s : string) :
  String.length (substring 0 n s) = Nat.min n (String.length s).
Proof.
  revert s. induction n as [|n IH]; intros [|c s]; simpl; try reflexivity.
  now rewrite IH.
Qed.

Lemma substring0_slice_from (n : nat) (s : string) :
  (substring 0 n s ++ slice_from s n)%string = s.
Proof.
  revert s. induction n as [|n IH]; intros [|c s]; simpl; try reflexivity.
  now rewrite IH.
Qed.

Lemma substring0_all (n : nat) (s : string) :
  String.length s <= n -> substring 0 n s = s.
Proof.
  revert s. induction n as [|n IH]; intros [|c s]; simpl; intros H;
    try reflexivity; try lia.
  rewrite IH; [reflexivity|lia].
Qed.

Lemma prefix_append (s t : string) : String.prefix s (s ++ t) = true.
Proof.
  induction s as [|c s IH]; simpl; [now destruct t|].
  destruct (ascii_dec c c); [assumption|congruence].
Qed.

Lemma slice_from_append (s t : string) (n : nat) :
  slice_from (s ++ t) (String.length s + n) = slice_from t n.
Proof. induction s as [|c s IH]; simpl; [reflexivity|assumption]. Qed.

Lemma slice_from_0 (s : string) : slice_from s 0 = s.
Proof. now destruct s. Qed.

Lemma slice_from_all (s : string) (n : nat) :
  String.length s <= n -> slice_from s n = EmptyString.
Proof.
  revert s. induction n as [|n IH]; intros [|c s]; simpl; intros H;
    try reflexivity; try lia.
  apply IH. lia.
Qed.

Lemma has_char_append (c : ascii) (s t : string) :
  has_char c (s ++ t) = has_char c s || has_char c t.
Proof.
  induction s as [|x s IH]; simpl; [reflexivity|].
  now rewrite IH, orb_assoc.
Qed.

Lemma slice_to_nil (n : Z) : slice_to "" n = EmptyString.
Proof.
  unfold slice_to. destruct (n <? 0)%Z; now destruct (Z.to_nat _).
Qed.

(** ** pluralize and abbr_fqdn *)

(** X1: [pluralize] returns [text] itself exactly when [n] is 1 or the
    suffix is empty; every other count, zero and the negative ones
    included, gets the suffix. *)
Theorem pluralize_unchanged_iff (n : Z) (text suffix : string) :
  (pluralize n text suffix = text <-> n = 1%Z \/ suffix = EmptyString) /\
  (n <> 1%Z -> pluralize n text suffix = (text ++ suffix)%string).
Proof.
  unfold pluralize. split.
  - destruct (Z.eqb_spec n 1) as [->|Hn]; simpl.
    + split; auto.
    + split.
      * intros H. right. now apply append_same_l in H.
      * intros [H | ->]; [contradiction|apply append_nil_r].
  - intros Hn. now destruct (Z.eqb_spec n 1).
Qed.

Lemma pluralize_unchanged_iff_witness :
  pluralize 0 "match" "es" = "matches"%string.
Proof.
  apply (proj2 (pluralize_unchanged_iff 0 "match" "es")). discriminate.
Defined.

(** X2: when [name] is [origin], one more character and a rest,
    [abbr_fqdn] returns the prefix followed by the rest, whatever the
    character after [origin] is; when [name] is [origin] itself it
    returns the prefix alone. *)
Theorem abbr_fqdn_strips (origin rest prefix : string) (sep : ascii) :
  abbr_fqdn origin (origin ++ String sep rest) prefix
  = (prefix ++ rest)%string /\
  abbr_fqdn origin origin prefix = prefix.
Proof.
  unfold abbr_fqdn. split.
  - rewrite prefix_append, slice_from_append. simpl.
    now rewrite slice_from_0.
  - rewrite <- (append_nil_r origin) at 2.
    rewrite prefix_append, slice_from_all, append_nil_r; [reflexivity|lia].
Qed.

(** X3: a [name] that does not start with [origin] is returned as it
    is; the prefix is not put before it. *)
Theorem abbr_fqdn_other (origin name prefix : string) :
  (forall rest, name <> (origin ++ rest)%string) ->
  abbr_fqdn origin name prefix = name.
Proof.
  intros H. unfold abbr_fqdn.
  destruct (String.prefix origin name) eqn:E; [|reflexivity].
  apply prefix_correct in E. exfalso.
  apply (H (slice_from name (String.length origin))).
  pose proof (substring0_slice_from (String.length origin) name) as J.
  rewrite E in J. now symmetry.
Qed.

Lemma abbr_fqdn_other_witness :
  abbr_fqdn "faust" "celery.app" "[*]" = "celery.app"%string.
Proof.
  apply (abbr_fqdn_other "faust" "celery.app" "[*]").
  intros rest C. discriminate C.
Defined.

(** ** shorten_fqdn *)

Lemma rsplit_at_none (sep : ascii) (s : string) :
  has_char sep s = false -> rsplit_at sep s = None.
Proof.
  induction s as [|c s IH]; simpl; [reflexivity|].
  intros H. apply orb_false_elim in H as [Hc Hs].
  now rewrite IH, Hc.
Qed.

Lemma rsplit_at_append (sep : ascii) (before after : string) :
  has_char sep after = false ->
  rsplit_at sep (before ++ String sep after) = Some (before, after).
Proof.
  intros H. induction before as [|c b IH]; simpl.
  - now rewrite rsplit_at_none, Ascii.eqb_refl.
  - now rewrite IH.
Qed.

Lemma rsplit_at_some (sep : ascii) (s before after : string) :
  rsplit_at sep s = Some (before, after) ->
  s = (before ++ String sep after)%string /\ has_char sep after = false.
Proof.
  revert before. induction s as [|c s IH]; simpl; intros before H;
    [discriminate|].
  destruct (rsplit_at sep s) as [[b a]|] eqn:E.
  - injection H as <- <-. destruct (IH b eq_refl) as [-> Ha].
    simpl. auto.
  - destruct (Ascii.eqb_spec c sep) as [->|]; [|discriminate].
    injection H as <- <-. split; [reflexivity|].
    clear IH. induction s as [|x s IHs]; simpl in *; [reflexivity|].
    destruct (rsplit_at sep s) as [[b a]|]; [discriminate|].
    destruct (Ascii.eqb x sep); [discriminate|]. simpl. now apply IHs.
Qed.

(** [rpartition] takes a string apart without losing any of it. *)
Lemma rpartition_join (s : string) (sep : ascii) :
  (fst (fst (rpartition s sep)) ++ snd (fst (rpartition s sep))
   ++ snd (rpartition s sep))%string = s /\
  has_char sep (snd (rpartition s sep)) = false.
Proof.
  unfold rpartition.
  destruct (rsplit_at sep s) as [[b a]|] eqn:E; simpl.
  - apply rsplit_at_some in E as [-> Ha]. auto.
  - split; [reflexivity|].
    induction s as [|x s IH]; simpl in *; [reflexivity|].
    destruct (rsplit_at sep s) as [[b a]|]; [discriminate|].
    destruct (Ascii.eqb x sep); [discriminate|]. simpl. now apply IH.
Qed.

(** X4: a dotted name longer than [max], whose last segment and the
    three characters of the mark fit in [max], is cut to exactly [max]
    characters: the start of the module part, the mark, and the last
    segment whole.  Nothing is printed. *)
Theorem shorten_fqdn_fits (module cls : string) (max : Z) :
  has_char "." cls = false ->
  (Z.of_nat (String.length cls) + 3 <= max)%Z ->
  (max < Z.of_nat (String.length (module ++ "." ++ cls)))%Z ->
  shorten_fqdn (module ++ "." ++ cls) max
  = ([], (substring 0 (Z.to_nat (max - Z.of_nat (String.length cls) - 3))
                    module ++ "[.]" ++ cls)%string) /\
  Z.of_nat (String.length (snd (shorten_fqdn (module ++ "." ++ cls) max)))
  = max.
Proof.
  intros Hdot Hfit Hlong.
  assert (E : shorten_fqdn (module ++ "." ++ cls) max
              = ([], (substring 0
                        (Z.to_nat (max - Z.of_nat (String.length cls) - 3))
                        module ++ "[.]" ++ cls)%string)).
  { unfold shorten_fqdn.
    rewrite (proj2 (Z.ltb_lt _ _) Hlong).
    unfold rpartition. simpl (("." ++ cls)%string).
    rewrite rsplit_at_append by assumption.
    unfold abbr, _abbr_word_boundary.
    rewrite length_append in Hlong. simpl String.length in Hlong.
    rewrite (proj2 (Z.ltb_lt _ _)) by lia.
    simpl (String.eqb "" ""). cbv iota. unfold slice_to.
    rewrite (proj2 (Z.ltb_ge _ _)) by lia. reflexivity. }
  split; [exact E|].
  rewrite E. simpl snd.
  rewrite !length_append, length_substring0 in *.
  simpl String.length in *. lia.
Qed.

Lemma shorten_fqdn_fits_witness :
  shorten_fqdn "faust.utils.text.FuzzyMatch" 20
  = ([], "faust.u[.]FuzzyMatch"%string) /\
  Z.of_nat (String.length (snd (shorten_fqdn "faust.utils.text.FuzzyMatch" 20)))
  = 20%Z.
Proof.
  apply (shorten_fqdn_fits "faust.utils.text" "FuzzyMatch" 20).
  - reflexivity.
  - simpl. lia.
  - simpl. lia.
Defined.

(** X5: a name without a dot that is longer than [max] is not shortened:
    the mark is put before it, so the result is three characters longer
    than the name. *)
Theorem shorten_fqdn_no_dot (s : string) (max : Z) :
  has_char "." s = false ->
  (max < Z.of_nat (String.length s))%Z ->
  shorten_fqdn s max = ([], ("[.]" ++ s)%string).
Proof.
  intros Hdot Hlong. unfold shorten_fqdn.
  rewrite (proj2 (Z.ltb_lt _ _) Hlong).
  unfold rpartition. rewrite rsplit_at_none by assumption.
  unfold abbr, _abbr_word_boundary. simpl String.length.
  rewrite (proj2 (Z.ltb_lt _ _)) by lia.
  simpl (String.eqb "" ""). cbv iota.
  now rewrite slice_to_nil.
Qed.

Lemma shorten_fqdn_no_dot_witness :
  shorten_fqdn "FuzzyMatch" 4 = ([], "[.]FuzzyMatch"%string).
Proof.
  apply (shorten_fqdn_no_dot "FuzzyMatch" 4); [reflexivity|simpl; lia].
Defined.

(** X6: whatever the limit, the result of [shorten_fqdn] ends with the
    whole last segment of the name, the text after its last dot. *)
Theorem shorten_fqdn_keeps_last_segment (s : string) (max : Z) :
  has_char "." (last_segment s) = false /\
  exists before,
    snd (shorten_fqdn s max) = (before ++ last_segment s)%string.
Proof.
  unfold last_segment.
  destruct (rpartition_join s ".") as [J D]. split; [exact D|].
  unfold shorten_fqdn.
  destruct (max <? Z.of_nat (String.length s))%Z.
  - destruct (rpartition s ".") as [[module sep] cls]. simpl in *.
    exists (_abbr_word_boundary
              module (max - Z.of_nat (String.length cls) - 3) "" ++ "[.]")%string.
    now rewrite append_assoc.
  - simpl. exists (fst (fst (rpartition s ".")) ++
                   snd (fst (rpartition s ".")))%string.
    now rewrite append_assoc.
Qed.

(** ** abbr *)

(** X7: with [words=True] and a suffix no longer than [max], a string of
    at most [max] characters is returned as it is, and a longer one is
    cut to exactly [max] characters: its first [max - len(suffix)]
    characters, then the suffix. *)
Theorem abbr_words_fits (s suffix : string) (max : Z) :
  (Z.of_nat (String.length suffix) <= max)%Z ->
  ((Z.of_nat (String.length s) <= max)%Z ->
   abbr s max suffix true = ([], s)) /\
  ((max < Z.of_nat (String.length s))%Z ->
   abbr s max suffix true
   = ([], (substring 0 (Z.to_nat (max - Z.of_nat (String.length suffix))) s
           ++ suffix)%string) /\
   Z.of_nat (String.length (snd (abbr s max suffix true))) = max).
Proof.
  intros Hsuf. unfold abbr, _abbr_word_boundary. split.
  - intros Hs. now rewrite (proj2 (Z.ltb_ge _ _) Hs).
  - intros Hs. rewrite (proj2 (Z.ltb_lt _ _) Hs).
    assert (E : (if String.eqb suffix ""
                 then slice_to s max
                 else (slice_to s (max - Z.of_nat (String.length suffix))
                       ++ suffix)%string)
                = (substring 0 (Z.to_nat (max - Z.of_nat (String.length suffix)))
                             s ++ suffix)%string).
    { destruct (String.eqb_spec suffix "") as [->|Hne].
      - simpl. rewrite append_nil_r, Z.sub_0_r. unfold slice_to.
        now rewrite (proj2 (Z.ltb_ge _ _)) by lia.
      - unfold slice_to. now rewrite (proj2 (Z.ltb_ge _ _)) by lia. }
    rewrite E. split; [reflexivity|]. simpl snd.
    rewrite length_append, length_substring0. lia.
Qed.

Lemma abbr_words_fits_witness :
  abbr "fuzzy matching" 9 "..." true = ([], "fuzzy ..."%string) /\
  Z.of_nat (String.length (snd (abbr "fuzzy matching" 9 "..." true))) = 9%Z.
Proof.
  apply (abbr_words_fits "fuzzy matching" "..." 9); simpl; lia.
Defined.

Lemma before_last_space_spec (t : string) :
  match before_last_space t with
  | Some kept =>
      exists w, t = (kept ++ " " ++ w)%string /\ has_char " " w = false
  | None => has_char " " t = false
  end.
Proof.
  induction t as [|c t IH]; simpl; [reflexivity|].
  destruct (before_last_space t) as [p|].
  - destruct IH as (w & -> & Hw). exists w. auto.
  - destruct (Ascii.eqb c " ") eqn:E.
    + apply Ascii.eqb_eq in E. subst c. exists t. auto.
    + simpl. assumption.
Qed.

(** X8: with [words=False], a positive [max] and a string of at least
    [max] characters, the result is cut at a space when there is one:
    if the first [max] characters hold no space they are all kept,
    otherwise what is kept ends just before the last space among them;
    the suffix follows in both cases. *)
Theorem abbr_abrupt_cut_at_space (s suffix : string) (max : Z) :
  (0 < max)%Z -> (max <= Z.of_nat (String.length s))%Z ->
  exists head rest,
    s = (head ++ rest)%string /\ Z.of_nat (String.length head) = max /\
    ((has_char " " head = false /\
      abbr s max suffix false
      = ([(s, max, suffix)], (head ++ suffix)%string)) \/
     (exists kept w,
         head = (kept ++ " " ++ w)%string /\ has_char " " w = false /\
         abbr s max suffix false
         = ([(s, max, suffix)], (kept ++ suffix)%string))).
Proof.
  intros Hpos Hlen.
  exists (substring 0 (Z.to_nat max) s), (slice_from s (Z.to_nat max)).
  split; [symmetry; apply substring0_slice_from|].
  split; [rewrite length_substring0; lia|].
  unfold abbr, _abbr_abrupt.
  rewrite (proj2 (Z.eqb_neq max 0)) by lia.
  rewrite (proj2 (Z.leb_le _ _) Hlen). simpl negb. cbv iota.
  unfold slice_to. rewrite (proj2 (Z.ltb_ge _ _)) by lia.
  unfold rsplit_head.
  pose proof (before_last_space_spec (substring 0 (Z.to_nat max) s)) as B.
  destruct (before_last_space (substring 0 (Z.to_nat max) s)) as [kept|].
  - right. destruct B as (w & E & Hw). exists kept, w. auto.
  - left. auto.
Qed.

Lemma abbr_abrupt_cut_at_space_witness :
  exists head rest,
    "fuzzy matching"%string = (head ++ rest)%string /\
    Z.of_nat (String.length head) = 9%Z /\
    ((has_char " " head = false /\
      abbr "fuzzy matching" 9 "..." false
      = ([("fuzzy matching"%string, 9%Z, "..."%string)],
         (head ++ "...")%string)) \/
     (exists kept w,
         head = (kept ++ " " ++ w)%string /\ has_char " " w = false /\
         abbr "fuzzy matching" 9 "..." false
         = ([("fuzzy matching"%string, 9%Z, "..."%string)],
            (kept ++ "...")%string))).
Proof.
  apply (abbr_abrupt_cut_at_space "fuzzy matching" "..." 9); simpl; lia.
Defined.

(** ** title *)












Lemma replace_removes (s new : string) (old : ascii) :
  has_char old new = false -> has_char old (replace s old new) = false.
Proof.
  intros H. induction s as [|c s IH]; simpl; [reflexivity|].
  destruct (Ascii.eqb c old) eqn:E.
  - now rewrite has_char_append, H, IH.
  - simpl. now rewrite E, IH.
Qed.


Lemma replace_absent (s new : string) (old : ascii) :
  has_char old s = false -> replace s old new = s.
Proof.
  induction s as [|c s IH]; simpl; [reflexivity|].
  intros H. apply orb_false_elim in H as [Hc Hs].
  now rewrite Hc, IH.
Qed.








Lemma replace_hyphen_idem (s : string) :
  replace (replace s "-" " ") "-" " " = replace s "-" " ".
Proof. apply replace_absent. now apply replace_removes. Qed.

(** X11: [title] reads a hyphen as a space, as its docstring shows:
    turning the hyphens of [s] into spaces does not change the
    result. *)
Theorem title_hyphen_is_space (s : string) :
  title (replace s "-" " ") = title s.
Proof. unfold title. now rewrite replace_hyphen_idem. Qed.

(** ** More on the fuzzy matches *)

Lemma fuzzymatch_filter (haystack : list string) (needle : string)
      (min_ratio : Q) :
  fuzzymatch haystack needle min_ratio
  = filter (fun c => Qle_bool min_ratio (similarity_ratio needle c)) haystack.
Proof.
  unfold fuzzymatch. rewrite fuzzymatch_iter_stream. unfold match_stream.
  rewrite map_map. simpl. apply map_id.
Qed.

Lemma filter_filter_implied {A : Type} (f g : A -> bool) (l : list A) :
  (forall x, f x = true -> g x = true) ->
  filter f (filter g l) = filter f l.
Proof.
  intros H. induction l as [|x l IH]; simpl; [reflexivity|].
  destruct (g x) eqn:G; simpl.
  - now rewrite IH.
  - destruct (f x) eqn:F; [|assumption].
    apply H in F. congruence.
Qed.

(** X12: raising the threshold only removes candidates: the matches at
    the higher threshold are the matches at the lower one, filtered
    again, in the same order. *)
Theorem fuzzymatch_threshold_monotone (haystack : list string)
        (needle : string) (low high : Q) :
  (low <= high)%Q ->
  fuzzymatch haystack needle high
  = filter (fun c => Qle_bool high (similarity_ratio needle c))
           (fuzzymatch haystack needle low).
Proof.
  intros H. rewrite !fuzzymatch_filter.
  symmetry. apply filter_filter_implied.
  intros c Hc. apply Qle_bool_iff in Hc. apply Qle_bool_iff.
  eapply Qle_trans; eauto.
Qed.

Lemma fuzzymatch_threshold_monotone_witness :
  fuzzymatch ["apple"; "apply"; "orange"]%string "aplpe" (7 # 10)
  = filter (fun c => Qle_bool (7 # 10) (similarity_ratio "aplpe" c))
           (fuzzymatch ["apple"; "apply"; "orange"]%string "aplpe" (6 # 10)).
Proof.
  apply (fuzzymatch_threshold_monotone
           ["apple"; "apply"; "orange"]%string "aplpe" (6 # 10) (7 # 10)).
  unfold Qle. simpl. lia.
Defined.

(** X13: with a threshold of zero or less every candidate is yielded:
    [fuzzymatch] returns the haystack itself. *)
Theorem fuzzymatch_nonpositive_threshold (haystack : list string)
        (needle : string) (min_ratio : Q) :
  (min_ratio <= 0)%Q ->
  fuzzymatch haystack needle min_ratio = haystack.
Proof.
  intros H. rewrite fuzzymatch_filter.
  induction haystack as [|c h IH]; simpl; [reflexivity|].
  destruct (similarity_ratio_bounds needle c) as [B _].
  rewrite (proj2 (Qle_bool_iff _ _) (Qle_trans _ _ _ H B)).
  now rewrite IH.
Qed.

Lemma fuzzymatch_nonpositive_threshold_witness :
  fuzzymatch ["start"; "stop"]%string "xyz" 0 = ["start"; "stop"]%string.
Proof.
  apply (fuzzymatch_nonpositive_threshold ["start"; "stop"]%string "xyz" 0).
  apply Qle_refl.
Defined.

(** X14: every match that [fuzzymatch_iter] yields carries a ratio
    between 0 and 1. *)
Theorem fuzzymatch_iter_ratio_range (haystack : list string)
        (needle : string) (min_ratio : Q) :
  Forall (fun x => (0 <= ratio x <= 1)%Q)
         (fuzzymatch_iter haystack needle min_ratio).
Proof.
  apply Forall_forall. intros x Hx.
  apply fuzzymatch_iter_In in Hx as (_ & -> & _).
  apply similarity_ratio_bounds.
Qed.

(** X15: the haystack may be split anywhere: the matches of [h1 ++ h2]
    are the matches of [h1] followed by the matches of [h2]. *)
Theorem fuzzymatch_iter_app (h1 h2 : list string) (needle : string)
        (min_ratio : Q) :
  fuzzymatch_iter (h1 ++ h2) needle min_ratio
  = fuzzymatch_iter h1 needle min_ratio ++ fuzzymatch_iter h2 needle min_ratio.
Proof.
  induction h1 as [|key h1 IH]; simpl; [reflexivity|].
  destruct (Qle_bool min_ratio (similarity_ratio needle key)); simpl;
    now rewrite IH.
Qed.

Lemma sorted_reverse_nil (l : list FuzzyMatch) :
  sorted_reverse l = [] <-> l = [].
Proof.
  split; [|now intros ->].
  destruct l as [|x l]; [reflexivity|]. intros H.
  assert (I : In x (sorted_reverse (x :: l)))
    by (apply sorted_reverse_In; now left).
  rewrite H in I. contradiction.
Qed.

Lemma fuzzymatch_best_none (haystack : list string) (needle : string)
      (min_ratio : Q) :
  fuzzymatch_best haystack needle min_ratio = None <->
  fuzzymatch_iter haystack needle min_ratio = [].
Proof.
  unfold fuzzymatch_best. rewrite <- sorted_reverse_nil.
  destruct (sorted_reverse (fuzzymatch_iter haystack needle min_ratio));
    split; intros H; try reflexivity; discriminate.
Qed.

(** X16: [fuzzymatch_best] answers from what [fuzzymatch] yields: it
    returns [None] exactly when [fuzzymatch] yields nothing, and a
    value it returns is one of the values [fuzzymatch] yields. *)
Theorem fuzzymatch_best_among_matches (haystack : list string)
        (needle : string) (min_ratio : Q) :
  (fuzzymatch_best haystack needle min_ratio = None <->
   fuzzymatch haystack needle min_ratio = []) /\
  (forall v, fuzzymatch_best haystack needle min_ratio = Some v ->
             In v (fuzzymatch haystack needle min_ratio)).
Proof.
  split.
  - rewrite fuzzymatch_best_none. unfold fuzzymatch.
    destruct (fuzzymatch_iter haystack needle min_ratio); simpl;
      split; intros H; try reflexivity; discriminate.
  - intros v Hv.
    destruct (fuzzymatch_best_head _ _ _ _ Hv) as (m & <- & Hin & _).
    unfold fuzzymatch. now apply in_map.
Qed.

Lemma fuzzymatch_best_among_matches_witness :
  In "apple"%string
     (fuzzymatch ["apple"; "apply"; "orange"]%string "aplpe" (6 # 10)).
Proof.
  apply (proj2 (fuzzymatch_best_among_matches
                  ["apple"; "apply"; "orange"]%string "aplpe" (6 # 10))).
  vm_compute. reflexivity.
Defined.

Lemma string_ltb_neither (v w : string) :
  String.ltb v w = false -> String.ltb w v = false -> v = w.
Proof.
  unfold String.ltb. rewrite (String.compare_antisym w v).
  destruct (String.compare v w) eqn:E; simpl; try discriminate.
  intros _ _. now apply String.compare_eq_iff.
Qed.

Lemma fuzzymatch_lt_neither (x y : FuzzyMatch) :
  ~ fuzzymatch_lt x y -> ~ fuzzymatch_lt y x -> value x = value y.
Proof.
  intros Hxy Hyx.
  destruct (Q_dec (ratio x) (ratio y)) as [[L|G]|E].
  - destruct Hxy. now left.
  - destruct Hyx. now left.
  - apply string_ltb_neither.
    + destruct (String.ltb (value x) (value y)) eqn:S; [|reflexivity].
      destruct Hxy. now right.
    + destruct (String.ltb (value y) (value x)) eqn:S; [|reflexivity].
      destruct Hyx. right. split; [now symmetry|assumption].
Qed.

(** X17: the answer of [fuzzymatch_best] depends on which strings the
    haystack holds, not on their order or on repetitions. *)
Theorem fuzzymatch_best_order_independent (h1 h2 : list string)
        (needle : string) (min_ratio : Q) :
  (forall c, In c h1 <-> In c h2) ->
  fuzzymatch_best h1 needle min_ratio = fuzzymatch_best h2 needle min_ratio.
Proof.
  intros Hsame.
  assert (Hiter : forall x, In x (fuzzymatch_iter h1 needle min_ratio) <->
                            In x (fuzzymatch_iter h2 needle min_ratio)).
  { intros x. rewrite !fuzzymatch_iter_In, Hsame. reflexivity. }
  destruct (fuzzymatch_best h1 needle min_ratio) as [v1|] eqn:E1;
    destruct (fuzzymatch_best h2 needle min_ratio) as [v2|] eqn:E2;
    try reflexivity.
  - destruct (fuzzymatch_best_head _ _ _ _ E1) as (m1 & <- & I1 & M1).
    destruct (fuzzymatch_best_head _ _ _ _ E2) as (m2 & <- & I2 & M2).
    f_equal. apply fuzzymatch_lt_neither.
    + apply M1. now apply Hiter.
    + apply M2. now apply Hiter.
  - destruct (fuzzymatch_best_head _ _ _ _ E1) as (m1 & _ & I1 & _).
    apply fuzzymatch_best_none in E2.
    apply Hiter in I1. rewrite E2 in I1. contradiction.
  - destruct (fuzzymatch_best_head _ _ _ _ E2) as (m2 & _ & I2 & _).
    apply fuzzymatch_best_none in E1.
    apply Hiter in I2. rewrite E1 in I2. contradiction.
Qed.

Lemma fuzzymatch_best_order_independent_witness :
  fuzzymatch_best ["apple"; "apply"]%string "aplpe" (6 # 10)
  = fuzzymatch_best ["apply"; "apple"; "apply"]%string "aplpe" (6 # 10).
Proof.
  apply (fuzzymatch_best_order_independent
           ["apple"; "apply"]%string ["apply"; "apple"; "apply"]%string).
  intros c. simpl. intuition.
Defined.

(** ** Templates *)

Lemma format_go_literal (pre rest alt : string) :
  has_char "{" pre = false -> has_char "}" pre = false ->
  format_go (pre ++ rest) None alt
  = option_map (String.append pre) (format_go rest None alt).
Proof.
  induction pre as [|c pre IH]; simpl; intros Ho Hc.
  - now destruct (format_go rest None alt).
  - apply orb_false_elim in Ho as [Ho Ho'].
    apply orb_false_elim in Hc as [Hc Hc'].
    rewrite Ho, Hc, (IH Ho' Hc').
    now destruct (format_go rest None alt).
Qed.

Lemma format_go_tail (post alt : string) :
  has_char "{" post = false -> has_char "}" post = false ->
  format_go post None alt = Some post.
Proof.
  intros Ho Hc. rewrite <- (append_nil_r post) at 1.
  rewrite format_go_literal by assumption. simpl.
  now rewrite append_nil_r.
Qed.

(** A template with one plain [{alt}] field and no other brace. *)
Lemma format_alt_template (pre post alt : string) :
  has_char "{" pre = false -> has_char "}" pre = false ->
  has_char "{" post = false -> has_char "}" post = false ->
  format_alt (pre ++ "{alt}" ++ post) alt = Some (pre ++ alt ++ post)%string.
Proof.
  intros H1 H2 H3 H4. unfold format_alt.
  rewrite format_go_literal by assumption.
  simpl (("{alt}" ++ post)%string). cbn [format_go].
  simpl. now rewrite format_go_tail.
Qed.

(** X18: with templates that hold one [{alt}] field and no other brace,
    [fuzzymatch_choices] never raises: it returns [fmt_none] for no
    candidate, the one-candidate template around a single candidate, and
    the many-candidates template around the candidates joined by
    [", "].  The candidates are inserted as they are, braces
    included. *)
Theorem fuzzymatch_choices_templates (haystack : list string)
        (needle : string) (many_pre many_post one_pre one_post : string)
        (fmt_none : string) (min_ratio : Q) :
  has_char "{" many_pre = false -> has_char "}" many_pre = false ->
  has_char "{" many_post = false -> has_char "}" many_post = false ->
  has_char "{" one_pre = false -> has_char "}" one_pre = false ->
  has_char "{" one_post = false -> has_char "}" one_post = false ->
  fuzzymatch_choices haystack needle
                     (many_pre ++ "{alt}" ++ many_post)
                     (one_pre ++ "{alt}" ++ one_post) fmt_none min_ratio
  = Some (match fuzzymatch haystack needle min_ratio with
          | [] => fmt_none
          | [c] => (one_pre ++ c ++ one_post)%string
          | alt => (many_pre ++ String.concat ", " alt ++ many_post)%string
          end).
Proof.
  intros M1 M2 M3 M4 O1 O2 O3 O4. unfold fuzzymatch_choices.
  destruct (fuzzymatch haystack needle min_ratio) as [|c [|c' alt]].
  - reflexivity.
  - cbn [List.length Nat.ltb Nat.leb]. cbv iota.
    cbn [String.concat]. now apply format_alt_template.
  - cbn [List.length Nat.ltb Nat.leb]. cbv iota.
    now apply format_alt_template.
Qed.

Lemma fuzzymatch_choices_templates_witness :
  fuzzymatch_choices ["start"; "stop"; "strut"]%string "strt"
                     ("one of " ++ "{alt}" ++ "") ("" ++ "{alt}" ++ "")
                     "" (6 # 10)
  = Some (match fuzzymatch ["start"; "stop"; "strut"]%string "strt" (6 # 10)
          with
          | [] => EmptyString
          | [c] => ("" ++ c ++ "")%string
          | alt => ("one of " ++ String.concat ", " alt ++ "")%string
          end).
Proof.
  apply (fuzzymatch_choices_templates
           ["start"; "stop"; "strut"]%string "strt" "one of " "" "" "");
    reflexivity.
Defined.

(** X19: with its default templates and threshold [didyoumean] never
    raises: it returns the empty string, ["Did you mean c?"] for a
    single candidate, or ["Did you mean one of c1, c2, ...?"], the
    candidates being those of [fuzzymatch] at 0.6, in haystack order. *)
Theorem didyoumean_default_phrase (haystack : list string)
        (needle : string) :
  didyoumean_default haystack needle
  = Some (match fuzzymatch haystack needle (6 # 10) with
          | [] => EmptyString
          | [c] => ("Did you mean " ++ c ++ "?")%string
          | alt =>
              ("Did you mean one of " ++ String.concat ", " alt ++ "?")%string
          end).
Proof.
  unfold didyoumean_default, didyoumean, fuzzymatch_choices.
  destruct (fuzzymatch haystack needle (6 # 10)) as [|c [|c' alt]].
  - reflexivity.
  - cbn [List.length Nat.ltb Nat.leb]. cbv iota. cbn [String.concat].
    apply (format_alt_template "Did you mean " "?"); reflexivity.
  - cbn [List.length Nat.ltb Nat.leb]. cbv iota.
    apply (format_alt_template "Did you mean one of " "?"); reflexivity.
Qed.

(** ** The blocks of the matcher are a common subsequence *)

Module SequenceMatcherBlocks.
Import SequenceMatcher MatcherSpec SequenceMatcherFacts.

Lemma common_le {A : Type} (n : nat) (a b : list A) :
  common n a b -> n <= List.length a /\ n <= List.length b.
Proof. induction 1; simpl; lia. Qed.

Lemma common_zero {A : Type} (a b : list A) : common 0 a b.
Proof.
  induction a as [|x a IH]; [|now constructor].
  induction b as [|y b IH]; now constructor.
Qed.

Lemma common_refl {A : Type} (a : list A) : common (List.length a) a a.
Proof. induction a as [|x a IH]; simpl; now constructor. Qed.

Lemma common_app {A : Type} (n1 n2 : nat) (a1 b1 a2 b2 : list A) :
  common n1 a1 b1 -> common n2 a2 b2 ->
  common (n1 + n2) (a1 ++ a2) (b1 ++ b2).
Proof.
  intros H1 H2. induction H1; simpl; try (now constructor). exact H2.
Qed.

(** A common subsequence as long as both lists leaves nothing out. *)
Lemma common_full {A : Type} (n : nat) (a b : list A) :
  common n a b -> n = List.length a -> n = List.length b -> a = b.
Proof.
  induction 1 as [|n x a b H IH|n y a b H IH|n x a b H IH]; simpl;
    intros Ha Hb.
  - reflexivity.
  - apply common_le in H. lia.
  - apply common_le in H. lia.
  - f_equal. apply IH; lia.
Qed.

Lemma common_In {A : Type} (n : nat) (a b : list A) :
  common n a b -> 0 < n -> exists c, In c a /\ In c b.
Proof.
  induction 1 as [|n x a b H IH|n y a b H IH|n x a b H IH]; intros Hn.
  - lia.
  - destruct (IH Hn) as (c & Ha & Hb). exists c. simpl. auto.
  - destruct (IH Hn) as (c & Ha & Hb). exists c. simpl. auto.
  - exists x. simpl. auto.
Qed.

Lemma firstn_plus {A : Type} (m n : nat) (l : list A) :
  firstn (m + n) l = firstn m l ++ firstn n (skipn m l).
Proof.
  revert l. induction m as [|m IH]; intros l; [reflexivity|].
  destruct l as [|x l]; simpl.
  - now rewrite firstn_nil.
  - now rewrite IH.
Qed.

Lemma slice_split {A : Type} (l : list A) (lo mid hi : nat) :
  lo <= mid -> mid <= hi ->
  slice l lo hi = slice l lo mid ++ slice l mid hi.
Proof.
  intros H1 H2. unfold slice.
  replace (hi - lo) with ((mid - lo) + (hi - mid)) by lia.
  rewrite firstn_plus, skipn_skipn.
  now replace (mid - lo + lo) with mid by lia.
Qed.

Lemma slice_full {A : Type} (l : list A) : slice l 0 (List.length l) = l.
Proof. unfold slice. rewrite Nat.sub_0_r. apply firstn_all. Qed.

Lemma length_slice {A : Type} (l : list A) (lo hi : nat) :
  hi <= List.length l -> List.length (slice l lo hi) = hi - lo.
Proof.
  intros H. unfold slice. rewrite length_firstn, length_skipn. lia.
Qed.

Lemma block_slices (a b : list elt) (m : Match) :
  block_sound a b m ->
  slice a (m_a m) (m_a m + size m) = slice b (m_b m) (m_b m + size m).
Proof.
  intros H. apply nth_error_ext. intros t. unfold slice.
  rewrite !nth_error_firstn, !nth_error_skipn.
  replace (m_a m + size m - m_a m) with (size m) by lia.
  replace (m_b m + size m - m_b m) with (size m) by lia.
  destruct (t <? size m) eqn:E; [|reflexivity].
  apply Nat.ltb_lt in E. now apply H.
Qed.

Lemma chain_b_sound (b : list elt) : b2j_sound b (chain_b b).
Proof.
  intros c j. unfold chain_b.
  destruct (popular _ _ c); [contradiction|].
  rewrite chain_enumerate_positions. simpl.
  intros H. apply positions_In in H as [_ H].
  now rewrite Nat.sub_0_r in H.
Qed.

Section Soundness.

Variables a b : list elt.

Lemma j2len_empty_sound (i : nat) : row_sound a b i j2len_empty.
Proof. intros j t H. unfold j2len_empty in H. lia. Qed.

Lemma inner_loop_sound (js : list nat) (i alo ahi blo bhi : nat)
      (j2len : j2len_t) :
  alo <= i < ahi ->
  row_bounded alo blo i j2len ->
  row_sound a b i j2len ->
  (forall j, In j js -> nth_error a i = nth_error b j) ->
  forall (newj2len : j2len_t) (best : Match),
    row_sound a b (S i) newj2len ->
    block_sound a b best ->
    block_sound a b (snd (inner_loop js i blo bhi j2len newj2len best)) /\
    row_sound a b (S i) (fst (inner_loop js i blo bhi j2len newj2len best)).
Proof.
  intros Hi Hbound Hrow.
  induction js as [|j js IH]; intros Hjs newj2len best Hnew Hbest;
    cbn [inner_loop].
  - auto.
  - assert (Hjs' : forall x, In x js -> nth_error a i = nth_error b x).
    { intros x Hx. apply Hjs. now right. }
    destruct (j <? blo) eqn:Elo; [now apply IH|].
    destruct (bhi <=? j) eqn:Ehi; [now auto|].
    apply Nat.ltb_ge in Elo.
    destruct (j2len_get_pred_bounded alo blo i j j2len Hbound Elo)
      as [Ka Kb].
    assert (Hcell : forall t, t < j2len_get_pred j2len j + 1 ->
                              nth_error a (i - t) = nth_error b (j - t)).
    { intros [|t'] Ht.
      - rewrite !Nat.sub_0_r. apply Hjs. now left.
      - destruct j as [|j0]; cbn [j2len_get_pred] in *; [lia|].
        assert (Ht' : t' < j2len j0) by lia.
        specialize (Hrow j0 t' Ht').
        replace (i - S t') with (i - 1 - t') by lia.
        exact Hrow. }
    apply IH; try assumption.
    + intros x t. unfold j2len_set.
      destruct (x =? j) eqn:Ex.
      * apply Nat.eqb_eq in Ex. subst x. intros Ht.
        replace (S i - 1 - t) with (i - t) by lia. now apply Hcell.
      * apply Hnew.
    + destruct (size best <? j2len_get_pred j2len j + 1); [|assumption].
      intros t Ht. cbn [m_a m_b size] in *.
      set (k := j2len_get_pred j2len j + 1) in *.
      replace (i + 1 - k + t) with (i - (k - 1 - t)) by lia.
      replace (j + 1 - k + t) with (j - (k - 1 - t)) by lia.
      apply Hcell. lia.
Qed.

Lemma outer_loop_sound (b2j : b2j_t) (len : nat) :
  b2j_sound b b2j ->
  forall (i alo ahi blo bhi : nat) (j2len : j2len_t) (best : Match),
    alo <= i -> i + len <= ahi ->
    row_bounded alo blo i j2len ->
    within alo ahi blo bhi best ->
    row_sound a b i j2len ->
    block_sound a b best ->
    block_sound a b (outer_loop (seq i len) a b2j blo bhi j2len best).
Proof.
  intros Hb2j.
  induction len as [|len IH];
    intros i alo ahi blo bhi j2len best Hlo Hhi Hbound Hin Hrow Hbest;
    cbn [seq outer_loop]; [assumption|].
  assert (Hjs : forall j, In j (indices_of a b2j i) ->
                          nth_error a i = nth_error b j).
  { intros j Hj. unfold indices_of in Hj.
    destruct (nth_error a i) as [c|]; [|contradiction].
    symmetry. now apply Hb2j. }
  destruct (inner_loop_sound (indices_of a b2j i) i alo ahi blo bhi j2len)
    with (newj2len := j2len_empty) (best := best) as [S1 S2];
    try assumption; try lia.
  { apply j2len_empty_sound. }
  destruct (inner_loop_within (indices_of a b2j i) i alo ahi blo bhi
              j2len j2len_empty best) as [B1 B2]; try assumption; try lia.
  { apply j2len_empty_bounded. }
  destruct (inner_loop (indices_of a b2j i) i blo bhi j2len j2len_empty best)
    as [newj2len best'].
  simpl in S1, S2, B1, B2.
  apply (IH (S i) alo ahi); try assumption; lia.
Qed.

Lemma same_at_eq (i j : nat) :
  same_at a b i j = true -> nth_error a i = nth_error b j.
Proof.
  unfold same_at.
  destruct (nth_error a i) as [x|], (nth_error b j) as [y|];
    try discriminate.
  intros H. apply Ascii.eqb_eq in H. now subst.
Qed.

Lemma extend_left_sound (fuel : nat) (junk : bool) (alo blo : nat) :
  forall m : Match,
    block_sound a b m ->
    block_sound a b (extend_left fuel junk a b alo blo m).
Proof.
  induction fuel as [|fuel IH]; intros m Hm; cbn [extend_left];
    [assumption|].
  destruct ((alo <? m_a m) && (blo <? m_b m)
            && Bool.eqb (junk_at b (m_b m - 1)) junk
            && same_at a b (m_a m - 1) (m_b m - 1)) eqn:E; [|assumption].
  apply andb_prop in E as [E Hs]. apply andb_prop in E as [E _].
  apply andb_prop in E as [Ea Eb]. apply Nat.ltb_lt in Ea, Eb.
  apply same_at_eq in Hs.
  apply IH. intros [|t] Ht; cbn [m_a m_b size] in *.
  - now rewrite !Nat.add_0_r.
  - replace (m_a m - 1 + S t) with (m_a m + t) by lia.
    replace (m_b m - 1 + S t) with (m_b m + t) by lia.
    apply Hm. lia.
Qed.

Lemma extend_right_sound (fuel : nat) (junk : bool) (ahi bhi : nat) :
  forall m : Match,
    block_sound a b m ->
    block_sound a b (extend_right fuel junk a b ahi bhi m).
Proof.
  induction fuel as [|fuel IH]; intros m Hm; cbn [extend_right];
    [assumption|].
  destruct ((m_a m + size m <? ahi) && (m_b m + size m <? bhi)
            && Bool.eqb (junk_at b (m_b m + size m)) junk
            && same_at a b (m_a m + size m) (m_b m + size m)) eqn:E;
    [|assumption].
  apply andb_prop in E as [_ Hs]. apply same_at_eq in Hs.
  apply IH. intros t Ht; cbn [m_a m_b size] in *.
  destruct (Nat.eq_dec t (size m)) as [->|Hne]; [assumption|].
  apply Hm. lia.
Qed.

(** The docstring's first promise: [a[i:i+k]] is equal to
    [b[j:j+k]]. *)
Lemma find_longest_match_sound (b2j : b2j_t) (alo ahi blo bhi : nat) :
  alo <= ahi -> blo <= bhi -> b2j_sound b b2j ->
  block_sound a b (find_longest_match a b b2j alo ahi blo bhi).
Proof.
  intros Ha Hb Hb2j. unfold find_longest_match.
  apply extend_right_sound, extend_left_sound,
    extend_right_sound, extend_left_sound.
  apply (outer_loop_sound b2j (ahi - alo) Hb2j alo alo ahi); try lia.
  - apply j2len_empty_bounded.
  - unfold within; simpl. lia.
  - apply j2len_empty_sound.
  - intros t Ht. simpl in Ht. lia.
Qed.

Lemma range_common_zero (r : range) : range_common a b r 0.
Proof. destruct r as [[[alo ahi] blo] bhi]. apply common_zero. Qed.

Lemma range_common_pushed (c : bool) (r : range) (q : list range)
      (ns : list nat) :
  Forall2 (range_common a b) (if c then r :: q else q) ns ->
  exists n ns',
    range_common a b r n /\ Forall2 (range_common a b) q ns' /\
    list_sum ns = n + list_sum ns'.
Proof.
  destruct c; intros H.
  - inversion H as [|r' n q' ns' Hr Hq]; subst.
    exists n, ns'. auto.
  - exists 0, ns. split; [apply range_common_zero|]. auto.
Qed.

(** A block and what is found on its two sides make a common
    subsequence of the whole range. *)
Lemma range_common_block (alo ahi blo bhi : nat) (x : Match) (nl nr : nat) :
  within alo ahi blo bhi x -> ahi <= List.length a -> bhi <= List.length b ->
  block_sound a b x ->
  range_common a b (alo, m_a x, blo, m_b x) nl ->
  range_common a b (m_a x + size x, ahi, m_b x + size x, bhi) nr ->
  range_common a b (alo, ahi, blo, bhi) (nl + size x + nr).
Proof.
  intros (W1 & W2 & W3 & W4) La Lb Hx Hl Hr. unfold range_common in *.
  rewrite (slice_split a alo (m_a x) ahi) by lia.
  rewrite (slice_split a (m_a x) (m_a x + size x) ahi) by lia.
  rewrite (slice_split b blo (m_b x) bhi) by lia.
  rewrite (slice_split b (m_b x) (m_b x + size x) bhi) by lia.
  rewrite <- Nat.add_assoc.
  apply common_app; [assumption|]. apply common_app; [|assumption].
  rewrite <- (block_slices a b x Hx).
  replace (size x) with (List.length (slice a (m_a x) (m_a x + size x))) at 1.
  - apply common_refl.
  - rewrite length_slice; lia.
Qed.

Lemma blocks_loop_common (b2j : b2j_t) (fuel : nat) :
  b2j_sound b b2j ->
  forall (queue : list range) (acc l : list Match),
    Forall (range_in (List.length a) (List.length b)) queue ->
    blocks_loop fuel a b b2j queue acc = Some l ->
    exists ns,
      Forall2 (range_common a b) queue ns /\
      total l = total acc + list_sum ns.
Proof.
  intros Hb2j.
  induction fuel as [|fuel IH]; intros queue acc l Hq Hl.
  - destruct queue as [|[[[alo ahi] blo] bhi] q]; [|discriminate].
    injection Hl as <-. exists []. split; [constructor|simpl; lia].
  - destruct queue as [|[[[alo ahi] blo] bhi] q].
    + injection Hl as <-. exists []. split; [constructor|simpl; lia].
    + inversion Hq as [|r' q' Hr Hq']; subst.
      destruct Hr as (Ha & La & Hb & Lb).
      pose proof (find_longest_match_within a b b2j alo ahi blo bhi Ha Hb)
        as W.
      pose proof (find_longest_match_sound b2j alo ahi blo bhi Ha Hb Hb2j)
        as S.
      cbn [blocks_loop] in Hl.
      set (x := find_longest_match a b b2j alo ahi blo bhi) in *.
      destruct (size x =? 0) eqn:Ek.
      * destruct (IH q acc l Hq' Hl) as (ns & F & T).
        exists (0 :: ns). split.
        -- constructor; [apply common_zero|assumption].
        -- simpl. lia.
      * destruct W as (W1 & W2 & W3 & W4).
        match type of Hl with
        | blocks_loop _ _ _ _ ?q2 _ = _ =>
            assert (Hq2 : Forall (range_in (List.length a) (List.length b)) q2)
        end.
        { destruct ((m_a x + size x <? ahi) && (m_b x + size x <? bhi));
            destruct ((alo <? m_a x) && (blo <? m_b x));
            repeat (constructor; [simpl; lia|]); assumption. }
        destruct (IH _ _ _ Hq2 Hl) as (ns & F & T).
        apply range_common_pushed in F as (nr & ns1 & Cr & F & Sr).
        apply range_common_pushed in F as (nl & ns2 & Cl & F & Sl).
        exists ((nl + size x + nr) :: ns2). split.
        -- constructor; [|assumption].
           apply range_common_block; try assumption.
           unfold within. lia.
        -- rewrite total_app, total_cons in T. cbn [total fold_right] in T.
           simpl. lia.
Qed.

Lemma matches_total (l : list Match) :
  blocks_loop (2 * List.length a + 1) a b (chain_b b)
              [(0, List.length a, 0, List.length b)] [] = Some l ->
  matches a b = total l.
Proof.
  intros El. unfold matches, get_matching_blocks. rewrite El.
  fold (total (collapse (sort_blocks l) (mkMatch 0 0 0) []
                 ++ [mkMatch (List.length a) (List.length b) 0])).
  rewrite total_app, total_collapse, total_sort_blocks, total_cons.
  cbn [total fold_right size]. lia.
Qed.

(** The elements counted by [ratio] are a common subsequence of the two
    sequences. *)
Lemma matches_common : common (matches a b) a b.
Proof.
  destruct (get_matching_blocks_loop_ends a b) as (l & El & _).
  rewrite (matches_total l El).
  assert (Hin : Forall (range_in (List.length a) (List.length b))
                       [(0, List.length a, 0, List.length b)]).
  { constructor; [|constructor]. simpl. lia. }
  destruct (blocks_loop_common (chain_b b) _ (chain_b_sound b) _ _ l Hin El)
    as (ns & F & T).
  inversion F as [|r n q ns' Hr Hq]; subst.
  inversion Hq; subst.
  unfold range_common in Hr. rewrite !slice_full in Hr.
  rewrite T. simpl. now rewrite Nat.add_0_r.
Qed.

Lemma calculate_ratio_one (m len : nat) :
  (calculate_ratio m len == 1)%Q -> len = 0 \/ 2 * m = len.
Proof.
  unfold calculate_ratio. intros H. destruct (len =? 0) eqn:E.
  - left. now apply Nat.eqb_eq.
  - apply Nat.eqb_neq in E. right.
    unfold Qeq in H. simpl Qnum in H. simpl Qden in H.
    rewrite Zpos_of_nat in H by assumption. lia.
Qed.

Lemma calculate_ratio_pos (m len : nat) :
  (0 < calculate_ratio m len)%Q -> len = 0 \/ 0 < m.
Proof.
  unfold calculate_ratio. intros H. destruct (len =? 0) eqn:E.
  - left. now apply Nat.eqb_eq.
  - right. unfold Qlt in H. simpl Qnum in H. simpl Qden in H. lia.
Qed.

(** Only a sequence equal to [a] scores 1 against it. *)
Lemma ratio_one_eq : (ratio a b == 1)%Q -> a = b.
Proof.
  intros H. pose proof matches_common as C.
  destruct (common_le _ _ _ C) as [Ca Cb].
  apply calculate_ratio_one in H as [H|H].
  - destruct a, b; simpl in H; try lia. reflexivity.
  - apply (common_full _ _ _ C); lia.
Qed.

(** Sequences that score above 0 are both empty or share an element. *)
Lemma ratio_pos_common :
  (0 < ratio a b)%Q ->
  (a = [] /\ b = []) \/ exists c, In c a /\ In c b.
Proof.
  intros H. apply calculate_ratio_pos in H as [H|H].
  - left. destruct a, b; simpl in H; try lia. auto.
  - right. apply (common_In _ _ _ matches_common H).
Qed.

End Soundness.

End SequenceMatcherBlocks.

(** ** Which candidates can match *)

Lemma list_ascii_of_string_inj (s t : string) :
  list_ascii_of_string s = list_ascii_of_string t -> s = t.
Proof.
  intros H. rewrite <- (string_of_list_ascii_of_string s).
  rewrite <- (string_of_list_ascii_of_string t). now rewrite H.
Qed.

Lemma has_char_In (c : ascii) (s : string) :
  has_char c s = true <-> In c (list_ascii_of_string s).
Proof.
  induction s as [|x s IH]; simpl.
  - split; [discriminate|contradiction].
  - rewrite orb_true_iff, IH, Ascii.eqb_eq. reflexivity.
Qed.


Lemma similarity_ratio_one_eq (a b : string) :
  (similarity_ratio a b == 1)%Q <-> a = b.
Proof.
  split.
  - intros H. apply list_ascii_of_string_inj.
    now apply SequenceMatcherBlocks.ratio_one_eq.
  - intros ->. apply SequenceMatcherFacts.ratio_same.
Qed.

(** X20: the ratio of two strings is 1 exactly when they are the same
    string. *)
Theorem similarity_ratio_one_iff (a b : string) :
  (similarity_ratio a b == 1)%Q <-> a = b.
Proof. apply similarity_ratio_one_eq. Qed.

Lemma Qle_bool_one_eqb (needle c : string) :
  Qle_bool 1 (similarity_ratio needle c) = String.eqb needle c.
Proof.
  destruct (String.eqb_spec needle c) as [->|Hne].
  - apply Qle_bool_iff. rewrite (proj2 (similarity_ratio_one_eq c c) eq_refl).
    apply Qle_refl.
  - destruct (Qle_bool 1 (similarity_ratio needle c)) eqn:E; [|reflexivity].
    apply Qle_bool_iff in E. exfalso. apply Hne.
    apply similarity_ratio_one_eq. apply Qle_antisym; [|assumption].
    apply similarity_ratio_bounds.
Qed.

(** X21: at the threshold 1 [fuzzymatch] yields the exact copies of the
    needle in the haystack and nothing else. *)
Theorem fuzzymatch_threshold_one (haystack : list string)
        (needle : string) :
  fuzzymatch haystack needle 1 = filter (String.eqb needle) haystack.
Proof.
  rewrite fuzzymatch_filter. apply filter_ext.
  intros c. apply Qle_bool_one_eqb.
Qed.

(** X22: when the needle itself is in the haystack and the threshold is
    at most 1, [fuzzymatch_best] returns the needle. *)
Theorem fuzzymatch_best_exact (haystack : list string) (needle : string)
        (min_ratio : Q) :
  In needle haystack -> (min_ratio <= 1)%Q ->
  fuzzymatch_best haystack needle min_ratio = Some needle.
Proof.
  intros Hin Hle.
  assert (Hself : (similarity_ratio needle needle == 1)%Q)
    by now apply similarity_ratio_one_eq.
  assert (Hx : In (mkFuzzyMatch (similarity_ratio needle needle) needle)
                  (fuzzymatch_iter haystack needle min_ratio)).
  { apply fuzzymatch_iter_In. simpl. repeat split; [assumption|].
    now rewrite Hself. }
  destruct (fuzzymatch_best haystack needle min_ratio) as [v|] eqn:E.
  - destruct (fuzzymatch_best_head _ _ _ _ E) as ([r v'] & Ev & Hm & Hmax).
    simpl in Ev. subst v'.
    apply fuzzymatch_iter_In in Hm as (_ & Hr & _). simpl in Hr. subst r.
    f_equal. symmetry. apply similarity_ratio_one_eq.
    apply Qle_antisym; [apply similarity_ratio_bounds|].
    apply Qnot_lt_le. intros C. apply (Hmax _ Hx). left. simpl.
    now rewrite Hself.
  - apply fuzzymatch_best_none in E. rewrite E in Hx. contradiction.
Qed.

Lemma fuzzymatch_best_exact_witness :
  fuzzymatch_best ["start"; "stop"; "strt"]%string "strt" (6 # 10)
  = Some "strt"%string.
Proof.
  apply (fuzzymatch_best_exact ["start"; "stop"; "strt"]%string "strt").
  - simpl. auto.
  - unfold Qle. simpl. lia.
Defined.

Lemma fuzzymatch_In (haystack : list string) (needle key : string)
      (min_ratio : Q) :
  In key (fuzzymatch haystack needle min_ratio) <->
  In key haystack /\ (min_ratio <= similarity_ratio needle key)%Q.
Proof.
  rewrite fuzzymatch_filter, filter_In, Qle_bool_iff. reflexivity.
Qed.

(** X23: with a positive threshold a candidate that [fuzzymatch] yields
    shares a character with the needle, unless both are empty. *)
Theorem fuzzymatch_shares_char (haystack : list string)
        (needle key : string) (min_ratio : Q) :
  (0 < min_ratio)%Q ->
  In key (fuzzymatch haystack needle min_ratio) ->
  (needle = EmptyString /\ key = EmptyString) \/
  exists c, has_char c needle = true /\ has_char c key = true.
Proof.
  intros Hpos Hin. apply fuzzymatch_In in Hin as [_ Hle].
  assert (Hr : (0 < similarity_ratio needle key)%Q)
    by (eapply Qlt_le_trans; eauto).
  apply SequenceMatcherBlocks.ratio_pos_common in Hr
    as [[Ha Hb]|(c & Ha & Hb)].
  - left. split; now apply list_ascii_of_string_nil.
  - right. exists c. now rewrite !has_char_In.
Qed.

Lemma fuzzymatch_shares_char_witness :
  ("aplpe"%string = EmptyString /\ "apple"%string = EmptyString) \/
  exists c, has_char c "aplpe" = true /\ has_char c "apple" = true.
Proof.
  apply (fuzzymatch_shares_char
           ["apple"; "apply"; "orange"]%string "aplpe" "apple" (6 # 10)).
  - reflexivity.
  - vm_compute. auto.
Defined.


